(** * DataWorld [nb/utils.py]: plotting and statistics helpers

    A shallow embedding of the helper functions of [nb/utils.py] and the
    properties its specification states about them.

    Conventions of the embedding.
    - A Python [dict] with keyword names as keys is a [gmap string V].
      Keyword arguments [**options] reach the callee as such a dict; the
      loop [for key, val in options.items()] visits its items, a list of
      pairs.
    - Numbers.  The code computes in IEEE doubles.  Module [Float64]
      embeds [np.mean], [np.std] and [standardize] on doubles, for the
      short arrays whose elements NumPy adds from left to right.  Module
      [Stats] reads the same formulas in exact real arithmetic; what is
      proved there holds of the code up to rounding, and says so.
    - Drawing and display calls on the external collaborators (matplotlib,
      IPython, pandas, scipy) are recorded as a trace of calls, in order. *)

From Stdlib Require Import Reals Lra List ZArith.
From Stdlib Require PrimFloat.
From stdpp Require Import gmap strings list fin_maps sorting.

(** ** Python values, exceptions and the trace of external calls *)

Module Py.

(** The exceptions the modelled calls can raise. *)
Inductive exn : Type :=
| TypeError | ValueError | IndexError | AttributeError.

Inductive res (A : Type) : Type :=
| Ok (a : A)
| Raise (e : exn).
Arguments Ok {A} a.
Arguments Raise {A} e.

(** Values passed as keyword options: [True]/[False], integers and
    strings are all the helpers of this file put into an options dict. *)
Inductive value : Type :=
| VBool (b : bool)
| VInt (n : Z)
| VStr (s : string).

(** A Python [str] built by the code: a literal, or an f-string field
    [f"{x:spec}"] kept as the pair of the number and its format
    specification (the rendering of floats is not modelled). *)
Inductive pystr : Type :=
| Lit (s : string)
| Format (x : R) (spec : string).

(** [xs[i]] on a Python list, for [i >= 0]. *)
Definition getitem {A : Type} (xs : list A) (i : nat) : res A :=
  match xs !! i with
  | Some x => Ok x
  | None => Raise IndexError
  end.

End Py.
Export Py.

(** ** Option-underride protocol *)

Module Underride.
Section underride.
Context {V : Type}.

(** [d.setdefault(key, val)]: insert only when [key] is absent.  The
    value returned by [setdefault] is discarded by the caller, so the
    model keeps the dictionary only. *)
Definition setdefault (d : gmap string V) (key : string) (val : V)
  : gmap string V :=
  match d !! key with
  | Some _ => d
  | None => <[key := val]> d
  end.

(** [underride(d, **options)], lines 125-134.  [options] is the list
    [options.items()]; the loop runs left to right.  The function
    mutates [d] in place and returns the same object: the result is
    both the return value and the caller's dictionary after the call. *)
Fixpoint underride (d : gmap string V) (options : list (string * V))
  : gmap string V :=
  match options with
  | [] => d
  | (key, val) :: rest => underride (setdefault d key val) rest
  end.

End underride.
End Underride.

(** ** Numeric collaborators in exact real arithmetic: [np.mean],
    [np.std], [np.random.normal] *)

Module Stats.
Local Open Scope R_scope.

Definition total (xs : list R) : R := fold_right Rplus 0 xs.

(** [np.mean(xs)]: the arithmetic mean. *)
Definition mean (xs : list R) : R := total xs / INR (length xs).

(** [np.var(xs)] with the default [ddof=0]: the mean of the squared
    deviations from the mean. *)
Definition var (xs : list R) : R :=
  mean (map (fun x => (x - mean xs) * (x - mean xs)) xs).

(** [np.std(xs)] with the default [ddof=0]: the square root of
    [np.var(xs)]. *)
Definition std (xs : list R) : R := sqrt (var xs).

(** Broadcasting of a scalar over an array: [xs - c] and [xs / c]. *)
Definition sub_scalar (xs : list R) (c : R) : list R :=
  map (fun x => x - c) xs.
Definition div_scalar (xs : list R) (c : R) : list R :=
  map (fun x => x / c) xs.

(** Element-wise [a + b] of two arrays of the same length. *)
Fixpoint add_arrays (a b : list R) : list R :=
  match a, b with
  | x :: a', y :: b' => (x + y) :: add_arrays a' b'
  | _, _ => []
  end.

(** [standardize(xs)], lines 80-87, in exact real arithmetic: the
    formula of the code without the rounding of its operations (the
    code as it runs on doubles is [Float64.standardize]). *)
Definition standardize (xs : list R) : list R :=
  div_scalar (sub_scalar xs (mean xs)) (std xs).

(** The state of NumPy's global generator, seen as the standard normal
    variates it will deliver next: [st i] is the [i]-th coming draw. *)
Definition RandomState : Type := nat -> R.

(** [np.random.normal(loc, scale, n)]: [n] draws [loc + scale * z],
    with [z] the successive standard normal variates of the generator;
    a negative [scale] raises [ValueError].  The generator advances by
    [n] draws. *)
Definition normal (loc scale : R) (n : nat) (st : RandomState)
  : res (list R) * RandomState :=
  if Rlt_dec scale 0 then (Raise ValueError, st)
  else (Ok (map (fun i => loc + scale * st i) (seq 0 n)),
        fun i => st (n + i)%nat).

(** [jitter(seq, std=1)], lines 69-78.  The parameters are named [xs]
    and [sigma] here ([seq] and [std] are taken); a call that leaves
    [std] out passes [sigma = 1]. *)
Definition jitter (xs : list R) (sigma : R) (st : RandomState)
  : res (list R) * RandomState :=
  let n := length xs in
  match normal 0 sigma n st with
  | (Ok noise, st') => (Ok (add_arrays noise xs), st')
  | (Raise e, st') => (Raise e, st')
  end.

End Stats.

(** ** Numeric collaborators on IEEE doubles *)

Module Float64.
Import PrimFloat.

(** [float(n)] for the length of an array, exact below [2^53]. *)
Fixpoint of_nat (n : nat) : float :=
  match n with
  | O => 0%float
  | S k => PrimFloat.add (of_nat k) 1%float
  end.

(** The sum of an array of doubles, as [np.mean] and [np.std] take it.
    NumPy adds the elements of an array of fewer than eight elements
    one by one, from left to right, each addition rounded; longer
    arrays are added in blocks and pairwise, which is not modelled
    ([None]). *)
Definition np_sum (xs : list float) : option float :=
  if (length xs <? 8)%nat then
    Some match xs with
         | [] => 0%float
         | x :: rest => fold_left PrimFloat.add rest x
         end
  else None.

(** [np.mean(xs)]: the sum divided by the number of elements. *)
Definition mean (xs : list float) : option float :=
  t ← np_sum xs; Some (PrimFloat.div t (of_nat (length xs))).

(** [np.var(xs)] with [ddof=0]: the deviations [xs - mean], their
    squares, and the sum of the squares divided by the number of
    elements. *)
Definition var (xs : list float) : option float :=
  m ← mean xs;
  let x := map (fun a => PrimFloat.sub a m) xs in
  let x := map (fun a => PrimFloat.mul a a) x in
  t ← np_sum x; Some (PrimFloat.div t (of_nat (length xs))).

(** [np.std(xs)] with [ddof=0]. *)
Definition std (xs : list float) : option float :=
  v ← var xs; Some (PrimFloat.sqrt v).

(** [standardize(xs)], lines 80-87, on doubles:
    [(xs - np.mean(xs)) / np.std(xs)], element by element. *)
Definition standardize (xs : list float) : option (list float) :=
  m ← mean xs;
  s ← std xs;
  Some (map (fun a => PrimFloat.div a s)
            (map (fun a => PrimFloat.sub a m) xs)).

(** An ill-conditioned sequence: two values two units apart at [1e16],
    both doubles. *)
Definition close_pair : list float :=
  [10000000000000000%float; 10000000000000002%float].

End Float64.

(** ** External calls and the monad that records them *)

Module Trace.

(** A fitted [scipy.stats.gaussian_kde] object.  Bandwidth selection and
    evaluation belong to scipy; the model keeps what the estimator was
    fitted on. *)
Inductive Kde : Type := FittedKde (dataset : list R).

(** Modelled from the spec: the density-curve class [Pdf], which
    [plot_kde] uses and [nb/utils.py] does not define: "a density-curve
    object bound to the estimator, the domain, and the optional name",
    rendered by its [plot] method with the caller's options. *)
Record Pdf : Type := MkPdf {
  pdf_kde : Kde;
  pdf_domain : R * R;
  pdf_name : string
}.

(** A [statsmodels] [SimpleTable], as its rows of text cells. *)
Inductive table : Type := SimpleTable (rows : list (list pystr)).

(** An artist of the current axes that a legend can show (a line, a
    patch, a collection, a bar container), with its label. *)
Record Artist : Type := MkArtist {
  artist_id : nat;
  artist_label : string
}.

(** The calls this file makes that draw or display something. *)
Inductive call : Type :=
| Axvline (x : R) (ls color : string)
    (* plt.axvline(x, ls=ls, color=color) *)
| PdfPlot (pdf : Pdf) (options : gmap string value)
    (* pdf.plot( **options ) *)
| Display (t : table)
    (* display(t) *)
| AxLegend (handles : list Artist) (labels : list string)
           (options : gmap string value)
    (* ax.legend(handles, labels, **options) *).

(** A computation: the calls made so far, and a value or the exception
    that stopped it. *)
Definition plt (A : Type) : Type := list call * res A.

Global Instance plt_ret : MRet plt := fun A a => ([], Ok a).

Global Instance plt_bind : MBind plt := fun A B k m =>
  match m with
  | (t, Ok a) => let (t', r) := k a in (t ++ t', r)
  | (t, Raise e) => (t, Raise e)
  end.

Definition emit (c : call) : plt unit := ([c], Ok tt).

Definition lift {A : Type} (r : res A) : plt A := ([], r).

Definition calls {A : Type} (m : plt A) : list call := fst m.
Definition outcome {A : Type} (m : plt A) : res A := snd m.

End Trace.
Export Trace.

(** ** Density estimation and plot, legend *)

Module Plot.
Import Stats.
Local Open Scope R_scope.

(** [gaussian_kde(sample)]: the fit.  scipy refuses a dataset of fewer
    than two elements with [ValueError], and one of zero variance,
    whose covariance matrix is singular, with [LinAlgError], which is a
    [ValueError]. *)
Definition gaussian_kde (dataset : list R) : res Kde :=
  if (length dataset <=? 1)%nat then Raise ValueError
  else if Req_dec_T (var dataset) 0 then Raise ValueError
  else Ok (FittedKde dataset).

(** [plot_kde(sample, name="", **options)], lines 90-99.  The fit comes
    first: when it raises, nothing is drawn. *)
Definition plot_kde (sample : list R) (name : string)
           (options : gmap string value) : plt unit :=
  kde ← lift (gaussian_kde sample);
  let m := mean sample in
  let s := std sample in
  _ ← emit (Axvline m ":" "0.3");
  let domain := (m - 4 * s, m + 4 * s) in
  let pdf := MkPdf kde domain name in
  emit (PdfPlot pdf options).


Definition curves (t : list call) : list Pdf :=
  flat_map (fun c => match c with
                     | PdfPlot pdf _ => [pdf]
                     | _ => []
                     end) t.

(** The domains over which a computation rendered density curves. *)
Definition plotted_domains {A : Type} (m : plt A) : list (R * R) :=
  map pdf_domain (curves (calls m)).

(** The current axes [plt.gca()]: their children (lines, patches,
    collections) in the order they were added, and their containers
    (the bar plots) in the order they were added. *)
Record Axes : Type := MkAxes {
  children : list Artist;
  containers : list Artist
}.

(** The artists matplotlib considers for a legend, in its order: the
    children first, then the containers. *)
Definition artists (ax : Axes) : list Artist :=
  children ax ++ containers ax.

(** matplotlib puts an artist in the legend when its label is not empty
    and does not start with an underscore:
    [label and not label.startswith('_')]. *)
Definition labeled (a : Artist) : bool :=
  negb (String.eqb (artist_label a) "")
  && negb (String.prefix "_" (artist_label a)).

(** [ax.get_legend_handles_labels()]: the labeled artists and their
    labels, children before containers. *)
Definition get_legend_handles_labels (ax : Axes)
  : list Artist * list string :=
  let hs := List.filter labeled (artists ax) in
  (hs, map artist_label hs).

(** The location names of a legend of axes. *)
Definition legend_locations : list string :=
  ["best"; "upper right"; "upper left"; "lower left"; "lower right";
   "right"; "center left"; "center right"; "lower center";
   "upper center"; "center"].

(** What matplotlib takes as [loc]: one of the names, or a code from 0
    to 10 ([True] and [False] are the integers 1 and 0). *)
Definition valid_loc (v : value) : bool :=
  match v with
  | VStr s => bool_decide (s ∈ legend_locations)
  | VInt n => (0 <=? n)%Z && (n <=? 10)%Z
  | VBool _ => true
  end.

(** [ax.legend(handles, labels, **options)]: the call is made, and
    matplotlib raises [ValueError] inside it for a [loc] that is not a
    location.  The other keywords are matplotlib's and are not
    checked. *)
Definition ax_legend (handles : list Artist) (labels : list string)
           (options : gmap string value) : plt unit :=
  _ ← emit (AxLegend handles labels options);
  match options !! "loc" with
  | Some v => if valid_loc v then mret tt else lift (Raise ValueError)
  | None => mret tt
  end.

(** [legend( **options )], lines 157-167, on the current axes [ax].
    [underride] mutates the dict [options]; what is passed on to
    [ax.legend] is that mutated dict. *)
Definition legend (ax : Axes) (options : gmap string value) : plt unit :=
  let options := Underride.underride options [("loc", VStr "best")] in
  let '(handles, labels) := get_legend_handles_labels ax in
  match handles with
  | [] => mret tt
  | _ :: _ => ax_legend handles labels options
  end.

End Plot.

(** ** Regression summary display *)

Module Summary.

(** The part of a fitted model's result object that [display_summary]
    looks at: the tables of [result.summary()], and the attributes
    [rsquared] and [prsquared], each present ([Some]) or absent. *)
Record RegressionResults : Type := MkResults {
  summary_tables : list table;
  rsquared : option R;
  prsquared : option R
}.

(** [display_summary(result)], lines 105-120.  [hasattr(result, a)]
    holds when the attribute is [Some]; the [if]/[elif] chain probes
    [rsquared] first.  The early [return] of the [else] branch is the
    [None] row. *)
Definition display_summary (result : RegressionResults) : plt unit :=
  params ← lift (getitem (summary_tables result) 1);
  _ ← emit (Display params);
  let row :=
    match rsquared result, prsquared result with
    | Some r, _ => Some [Lit "R-squared:"; Format r "0.4"]
    | None, Some pr => Some [Lit "Pseudo R-squared:"; Format pr "0.4"]
    | None, None => None
    end in
  match row with
  | None => mret tt
  | Some row =>
      let table := SimpleTable [row] in
      emit (Display table)
  end.

(** The one-row tables of the two goodness-of-fit statistics, as the
    code builds them. *)
Definition rsquared_table (r : R) : table :=
  SimpleTable [[Lit "R-squared:"; Format r "0.4"]].
Definition prsquared_table (pr : R) : table :=
  SimpleTable [[Lit "Pseudo R-squared:"; Format pr "0.4"]].

(** An ordinary-least-squares result: three summary tables, [rsquared]
    only. *)
Definition ols_result : RegressionResults :=
  MkResults
    [SimpleTable [[Lit "Dep. Variable:"; Lit "y"]];
     SimpleTable [[Lit "Intercept"; Lit "1.5"]; [Lit "x"; Lit "0.25"]];
     SimpleTable [[Lit "Omnibus:"; Lit "0.1"]]]
    (Some 0.5%R) None.

(** A result object carrying both attributes. *)
Definition both_result : RegressionResults :=
  MkResults
    [SimpleTable [[Lit "Dep. Variable:"; Lit "y"]];
     SimpleTable [[Lit "Intercept"; Lit "1.5"]; [Lit "x"; Lit "0.25"]]]
    (Some 0.5%R) (Some 0.25%R).

End Summary.

(** ** Value counting *)

Module Counting.

(** A [pd.Series] of integers with missing entries: [None] is [NaN]. *)
Abbreviation Series := (list (option Z)).

(** The result of [Series.value_counts]: a series of counts indexed by
    the distinct values, as its (index, count) items in order. *)
Abbreviation Counts := (list (option Z * nat)).

(** Number of entries of [s] equal to [v]. *)
Definition count_of (v : option Z) (s : Series) : nat :=
  length (filter (λ w, w = v) s).

(** The distinct values of [s], in order of first appearance. *)
Fixpoint uniques (s : Series) : Series :=
  match s with
  | [] => []
  | v :: rest => v :: filter (λ w, w ≠ v) (uniques rest)
  end.

(** Order of the counts, for [sort_values]: descending unless
    [ascending]. *)
Definition by_count (ascending : bool) (p q : option Z * nat) : Prop :=
  if ascending then p.2 ≤ q.2 else q.2 ≤ p.2.

Global Instance by_count_dec ascending p q :
  Decision (by_count ascending p q).
Proof. unfold by_count. destruct ascending; apply _. Defined.

(** Order of the index, for [sort_index]: ascending, [NaN] last. *)
Definition index_le (v w : option Z) : Prop :=
  match v, w with
  | Some a, Some b => (a ≤ b)%Z
  | Some _, None => True
  | None, Some _ => False
  | None, None => True
  end.

Global Instance index_le_dec v w : Decision (index_le v w).
Proof. destruct v, w; simpl; apply _. Defined.

(** The strict order: strictly ascending values, then [NaN]. *)
Definition index_lt (v w : option Z) : Prop :=
  match v, w with
  | Some a, Some b => (a < b)%Z
  | Some _, None => True
  | None, _ => False
  end.

Definition by_index (p q : option Z * nat) : Prop := index_le p.1 q.1.

Global Instance by_index_dec p q : Decision (by_index p q).
Proof. unfold by_index. apply _. Defined.

(** [Series.sort_index()] with its defaults. *)
Definition sort_index (c : Counts) : Counts := merge_sort by_index c.

(** The keyword arguments of [Series.value_counts] that the model
    covers, with the pandas defaults [sort=True], [ascending=False],
    [dropna=True]. *)
Record vc_args : Type := MkArgs {
  arg_sort : bool;
  arg_ascending : bool;
  arg_dropna : bool
}.

Definition keywords : gset string :=
  list_to_set ["sort"; "ascending"; "dropna"].

Definition kw_bool (kw : gmap string value) (name : string)
           (default : bool) : res bool :=
  match kw !! name with
  | None => Ok default
  | Some (VBool b) => Ok b
  | Some _ => Raise TypeError
  end.

(** Binding of [**kw] to the parameters.  An unexpected keyword raises
    [TypeError]; [normalize] and [bins], which change the type of the
    result, and flags that are not [True] or [False] are outside the
    model and are rejected in the same way. *)
Definition bind_args (kw : gmap string value) : res vc_args :=
  if decide (dom kw ⊆ keywords) then
    match kw_bool kw "sort" true,
          kw_bool kw "ascending" false,
          kw_bool kw "dropna" true with
    | Ok s, Ok a, Ok d => Ok (MkArgs s a d)
    | _, _, _ => Raise TypeError
    end
  else Raise TypeError.

(** The entries that are counted: all of them, or the non-missing ones
    when [dropna]. *)
Definition kept (dropna : bool) (series : Series) : Series :=
  if dropna then filter (λ v, v ≠ None) series else series.

(** Each distinct value with its number of occurrences. *)
Definition tally (vals : Series) : Counts :=
  (λ v, (v, count_of v vals)) <$> uniques vals.

(** [series.value_counts( **kw )]: count the distinct values, leaving
    out [NaN] when [dropna]; when [sort], order by count. *)
Definition series_value_counts (series : Series) (kw : gmap string value)
  : res Counts :=
  match bind_args kw with
  | Raise e => Raise e
  | Ok args =>
      let counts := tally (kept (arg_dropna args) series) in
      Ok (if arg_sort args
          then merge_sort (by_count (arg_ascending args)) counts
          else counts)
  end.

(** [value_counts(series, **options)], lines 42-50. *)
Definition value_counts (series : Series) (options : gmap string value)
  : res Counts :=
  let options := Underride.underride options [("dropna", VBool false)] in
  match series_value_counts series options with
  | Ok counts => Ok (sort_index counts)
  | Raise e => Raise e
  end.

(** The caller's options that the model of pandas covers: keywords
    among [sort], [ascending], [dropna], each [True] or [False]. *)
Definition accepted (options : gmap string value) : Prop :=
  map_Forall (λ k v, k ∈ keywords ∧ ∃ b, v = VBool b) options.

(** Whether missing entries are dropped: the caller's [dropna] when
    given, otherwise [False]. *)
Definition dropna_of (options : gmap string value) : bool :=
  match options !! "dropna" with
  | Some (VBool b) => b
  | _ => false
  end.

End Counting.

(** ** Axes decoration *)

Module Decorate.
Import Plot.

(** Python truthiness of an option value, as [if v:] tests it. *)
Definition truthy (v : value) : bool :=
  match v with
  | VBool b => b
  | VInt n => negb (n =? 0)%Z
  | VStr s => negb (String.eqb s "")
  end.

(** [d.pop(key, default)]: the value taken out, or the default, and the
    dict without the key. *)
Definition pop (d : gmap string value) (key : string) (dflt : value)
  : value * gmap string value :=
  (default dflt (d !! key), delete key d).

(** The calls of the decoration helpers: those of the helpers above,
    and the two calls on the current axes and figure. *)
Inductive draw : Type :=
| Helper (c : call)
| AxSet (props : gmap string value)
    (* plt.gca().set( **props ) *)
| TightLayout
    (* plt.tight_layout() *).

Definition fig (A : Type) : Type := list draw * res A.

Global Instance fig_ret : MRet fig := fun A a => ([], Ok a).

Global Instance fig_bind : MBind fig := fun A B k m =>
  match m with
  | (t, Ok a) => let (t', r) := k a in (t ++ t', r)
  | (t, Raise e) => (t, Raise e)
  end.

Definition draw1 (d : draw) : fig unit := ([d], Ok tt).

(** A helper of the modules above, run inside a decoration. *)
Definition helper {A : Type} (m : plt A) : fig A :=
  (Helper <$> calls m, outcome m).

(** The names of the properties of matplotlib axes: the [k] for which
    the axes have a setter [set_k], as [Axes.set] documents them. *)
Definition axes_properties : gset string :=
  list_to_set
    ["adjustable"; "agg_filter"; "alpha"; "anchor"; "animated"; "aspect";
     "autoscale_on"; "autoscalex_on"; "autoscaley_on"; "axes_locator";
     "axisbelow"; "box_aspect"; "clip_box"; "clip_on"; "clip_path";
     "facecolor"; "fc"; "figure"; "frame_on"; "gid"; "in_layout";
     "label"; "mouseover"; "navigate"; "navigate_mode"; "path_effects";
     "picker"; "position"; "prop_cycle"; "rasterization_zorder";
     "rasterized"; "sketch_params"; "snap"; "subplotspec"; "title";
     "transform"; "url"; "visible"; "xbound"; "xlabel"; "xlim";
     "xmargin"; "xscale"; "xticklabels"; "xticks"; "ybound"; "ylabel";
     "ylim"; "ymargin"; "yscale"; "yticklabels"; "yticks"; "zorder"].

(** [plt.gca().set( **props )]: the call is made, and matplotlib raises
    [AttributeError] inside it when a keyword is not a property of the
    axes.  What the setters do with the values is matplotlib's and is
    not checked. *)
Definition ax_set (props : gmap string value) : fig unit :=
  _ ← draw1 (AxSet props);
  if decide (dom props ⊆ axes_properties) then mret tt
  else ([], Raise AttributeError).

(** [decorate( **options )], lines 137-154, on the current axes [ax].
    An exception of [ax.legend] or of [ax.set] ends the function: the
    calls after it are not made. *)
Definition decorate (ax : Axes) (options : gmap string value) : fig unit :=
  let '(loc, options) := pop options "loc" (VStr "best") in
  let '(show, options) := pop options "legend" (VBool true) in
  _ ← (if truthy show then helper (legend ax {[ "loc" := loc ]})
       else mret tt);
  _ ← ax_set options;
  draw1 TightLayout.


Definition set_calls (t : list draw) : list (gmap string value) :=
  flat_map (fun d => match d with AxSet props => [props] | _ => [] end) t.

End Decorate.

(** ** Spine removal *)

Module Spines.

(** The part of the current axes that [remove_spines] touches: the
    spines [ax.spines], by name and in order, each visible or not, and
    the side on which each axis draws its ticks. *)
Record Frame : Type := MkFrame {
  spines : list (string * bool);
  xaxis_ticks : string;
  yaxis_ticks : string
}.

(** The loop [for spine in ax.spines.values():
    spine.set_visible(False)]. *)
Fixpoint hide (sp : list (string * bool)) : list (string * bool) :=
  match sp with
  | [] => []
  | (name, _) :: rest => (name, false) :: hide rest
  end.

(** [remove_spines()], lines 31-39, on the current axes. *)
Definition remove_spines (ax : Frame) : Frame :=
  let ax := MkFrame (hide (spines ax)) (xaxis_ticks ax) (yaxis_ticks ax) in
  let ax := MkFrame (spines ax) "bottom" (yaxis_ticks ax) in
  MkFrame (spines ax) (xaxis_ticks ax) "left".

(** The axes of a fresh matplotlib figure. *)
Definition fresh_frame : Frame :=
  MkFrame [("left", true); ("right", true); ("bottom", true); ("top", true)]
          "default" "default".

End Spines.

(** ** Back-to-back bar plots *)

Module TwoBars.
Import Plot Decorate.
Local Open Scope R_scope.

(** Values of the styling options of a bar plot: those of [value], and
    floats such as [alpha=0.6]. *)
Inductive style : Type :=
| SValue (v : value)
| SFloat (x : R).

Section two_bar_plots.

(** The distribution objects ([Hist] or [Pmf]) belong to another
    library; so does what their [bar] method draws, taken here as its
    effect on the artists of the current axes. *)
Context {Dist : Type}.
Variable bar_effect :
  Dist → string → R → gmap string style → Axes → Axes.

Inductive bars_draw : Type :=
| Bar (dist : Dist) (align : string) (width : R)
      (options : gmap string style)
    (* dist.bar(align=align, width=width, **options) *)
| Decoration (d : draw).

(** [dist.bar(align="edge", width=w, **options)]: Python refuses the
    call with [TypeError] when [options] repeats a keyword written out
    in the call. *)
Definition call_bar (dist : Dist) (w : R) (options : gmap string style)
           (ax : Axes) : list bars_draw * res Axes :=
  if decide ("align" ∈ dom options ∨ "width" ∈ dom options)
  then ([], Raise TypeError)
  else ([Bar dist "edge" w options],
        Ok (bar_effect dist "edge" w options ax)).

(** [two_bar_plots(dist1, dist2, width=0.45, xlabel="", **options)],
    lines 53-64, on the current axes [ax]. *)
Definition two_bar_plots (ax : Axes) (dist1 dist2 : Dist) (width : R)
           (xlabel : string) (options : gmap string style)
  : list bars_draw * res unit :=
  let options := Underride.underride options [("alpha", SFloat 0.6)] in
  match call_bar dist1 (- width) options ax with
  | (t1, Raise e) => (t1, Raise e)
  | (t1, Ok ax1) =>
      match call_bar dist2 width options ax1 with
      | (t2, Raise e) => (t1 ++ t2, Raise e)
      | (t2, Ok ax2) =>
          let (t3, r) := decorate ax2 {[ "xlabel" := VStr xlabel ]} in
          (t1 ++ t2 ++ (Decoration <$> t3), r)
      end
  end.

(** The bar calls of a trace. *)
Definition bar_calls (t : list bars_draw)
  : list (Dist * string * R * gmap string style) :=
  flat_map (fun d => match d with
                     | Bar dist align w o => [(dist, align, w, o)]
                     | Decoration _ => []
                     end) t.

End two_bar_plots.

(** An instance for examples: distributions named by a number, whose
    [bar] adds one container, labeled by the [label] option when there
    is one. *)
Definition example_bar (dist : nat) (align : string) (w : R)
           (options : gmap string style) (ax : Axes) : Axes :=
  MkAxes (children ax)
         (containers ax ++
          [MkArtist dist match options !! "label" with
                         | Some (SValue (VStr s)) => s
                         | _ => "_nolegend_"
                         end]).

End TwoBars.

(** ** More of the summary and counting models *)

Module More.
Import Summary Counting.

(** A logistic-regression result: two summary tables, [prsquared]
    only. *)
Definition logit_result : RegressionResults :=
  MkResults
    [SimpleTable [[Lit "Dep. Variable:"; Lit "y"]];
     SimpleTable [[Lit "Intercept"; Lit "-0.5"]; [Lit "x"; Lit "2.0"]]]
    None (Some 0.125%R).

(** A result whose summary has a single table. *)
Definition short_result : RegressionResults :=
  MkResults [SimpleTable [[Lit "Dep. Variable:"; Lit "y"]]]
            (Some 0.5%R) None.

(** The sum of the counts of a result. *)
Definition total_count (counts : Counts) : nat := sum_list counts.*2.

End More.

(** * Properties *)

(** ** The underride protocol *)

Section underride_facts.
Import Underride.
Context {V : Type}.
Implicit Types (d : gmap string V) (options : list (string * V)).

Lemma lookup_setdefault d key val k :
  setdefault d key val !! k =
  match d !! k with
  | Some v => Some v
  | None => if decide (key = k) then Some val else None
  end.
Proof.
  unfold setdefault. destruct (d !! key) as [w|] eqn:Hkey.
  - destruct (d !! k) as [v|] eqn:Hk; [done|].
    case_decide; [congruence | done].
  - rewrite lookup_insert. case_decide as Heq.
    + subst k. by rewrite Hkey.
    + by destruct (d !! k).
Qed.

(** A key of [d] keeps its value through [setdefault]. *)
Lemma setdefault_keeps d key val k v :
  d !! k = Some v → setdefault d key val !! k = Some v.
Proof. intros Hk. by rewrite lookup_setdefault, Hk. Qed.

Lemma setdefault_present d key val : is_Some (setdefault d key val !! key).
Proof.
  rewrite lookup_setdefault. destruct (d !! key); [eauto|].
  rewrite decide_True by done. eauto.
Qed.

Lemma underride_keeps d options k v :
  d !! k = Some v → underride d options !! k = Some v.
Proof.
  revert d. induction options as [|[key val] rest IH]; intros d Hk; [done|].
  simpl. apply IH. by apply setdefault_keeps.
Qed.

Lemma underride_present d options key val :
  (key, val) ∈ options → is_Some (underride d options !! key).
Proof.
  revert d. induction options as [|[key' val'] rest IH]; intros d Hin.
  - by apply elem_of_nil in Hin.
  - simpl. apply elem_of_cons in Hin as [Heq|Hin]; [|by apply IH].
    injection Heq as -> ->.
    destruct (setdefault_present d key' val') as [w Hw].
    rewrite (underride_keeps _ _ _ _ Hw). eauto.
Qed.

(** Every lookup in the result: the caller's value when there is one,
    otherwise the first default given for the key. *)
Lemma lookup_underride d options k :
  underride d options !! k =
  match d !! k with
  | Some v => Some v
  | None => (list_to_map options : gmap string V) !! k
  end.
Proof.
  revert d. induction options as [|[key val] rest IH]; intros d; simpl.
  - rewrite lookup_empty. by destruct (d !! k).
  - rewrite IH, lookup_setdefault, lookup_insert.
    destruct (d !! k); [done|]. by case_decide.
Qed.

(** The merge is the left-biased union of the caller's options with
    the defaults. *)
Lemma underride_union d options :
  underride d options = d ∪ list_to_map options.
Proof.
  apply map_eq; intros k. rewrite lookup_underride, lookup_union.
  destruct (d !! k), (list_to_map options !! k); done.
Qed.

(** A default whose key the caller did not set is inserted with the
    given value (the keys of a keyword dict are distinct). *)
Lemma underride_inserts d options key val :
  NoDup options.*1 → (key, val) ∈ options → d !! key = None →
  underride d options !! key = Some val.
Proof.
  intros Hnd Hin Hk. rewrite lookup_underride, Hk.
  by apply elem_of_list_to_map_1.
Qed.

(** Keys that are neither in [d] nor among the defaults stay absent. *)
Lemma underride_absent d options key :
  d !! key = None → key ∉ options.*1 → underride d options !! key = None.
Proof.
  intros Hk Hnot. rewrite lookup_underride, Hk.
  by apply not_elem_of_list_to_map_1.
Qed.

(** An empty set of defaults is a no-op. *)
Lemma underride_nil d : underride d [] = d.
Proof. done. Qed.

(** C1.  For every mapping [d] and every list of defaults, after
    [underride(d, **defaults)] every default key is present in the
    result, and every key that [d] held before the call is bound in the
    result to the value [d] held for it: defaults never overwrite the
    caller's values. *)
Theorem underride_defaults_present_caller_kept d options :
  (∀ key val, (key, val) ∈ options →
              is_Some (underride d options !! key)) ∧
  (∀ key v, d !! key = Some v → underride d options !! key = Some v).
Proof.
  split.
  - intros key val. apply underride_present.
  - intros key v. apply underride_keeps.
Qed.

End underride_facts.

(** The example of the specification: [{"color": "red"}] with defaults
    [color="blue", alpha=0.6] gives [{"color": "red", "alpha": 0.6}]
    (values written as their text). *)
Example underride_color_alpha :
  Underride.underride ({[ "color" := "red" ]} : gmap string string)
                      [("color", "blue"); ("alpha", "0.6")]
  = {[ "color" := "red"; "alpha" := "0.6" ]}.
Proof. vm_compute. reflexivity. Qed.

(** ** Mean, standard deviation and [standardize] *)

Section stats_facts.
Import Stats.
Local Open Scope R_scope.
Implicit Types (xs ys : list R) (c : R).

Lemma total_sub_scalar xs c :
  total (sub_scalar xs c) = total xs - INR (length xs) * c.
Proof.
  induction xs as [|x xs IH]; [simpl; lra|].
  change (total (sub_scalar (x :: xs) c))
    with (x - c + total (sub_scalar xs c)).
  change (total (x :: xs)) with (x + total xs).
  change (length (x :: xs)) with (S (length xs)).
  rewrite IH, S_INR. lra.
Qed.

Lemma total_div_scalar xs c :
  total (div_scalar xs c) = total xs / c.
Proof.
  induction xs as [|x xs IH]; [simpl; lra|].
  change (total (div_scalar (x :: xs) c))
    with (x / c + total (div_scalar xs c)).
  change (total (x :: xs)) with (x + total xs).
  rewrite IH. unfold Rdiv. lra.
Qed.

Lemma length_sub_scalar xs c : length (sub_scalar xs c) = length xs.
Proof. apply length_map. Qed.

Lemma length_div_scalar xs c : length (div_scalar xs c) = length xs.
Proof. apply length_map. Qed.

Lemma length_standardize xs : length (standardize xs) = length xs.
Proof.
  unfold standardize. by rewrite length_div_scalar, length_sub_scalar.
Qed.

Lemma INR_length_nonzero xs : xs ≠ [] → INR (length xs) ≠ 0.
Proof.
  intros Hne. apply not_0_INR. destruct xs; [done | simpl; lia].
Qed.

Lemma mean_nil : mean [] = 0.
Proof. unfold mean. simpl. lra. Qed.

Lemma var_nil : var [] = 0.
Proof. unfold var. simpl. apply mean_nil. Qed.

(** A sequence of positive variance is not empty. *)
Lemma var_pos_nonempty xs : 0 < var xs → xs ≠ [].
Proof. intros Hv ->. rewrite var_nil in Hv. lra. Qed.

Lemma mean_sub_scalar xs c :
  xs ≠ [] → mean (sub_scalar xs c) = mean xs - c.
Proof.
  intros Hne. unfold mean.
  rewrite total_sub_scalar, length_sub_scalar.
  field. by apply INR_length_nonzero.
Qed.

Lemma mean_div_scalar xs c : mean (div_scalar xs c) = mean xs / c.
Proof.
  unfold mean. rewrite total_div_scalar, length_div_scalar.
  unfold Rdiv. ring.
Qed.

(** Centering gives mean zero (also for the empty sequence, whose mean
    is [0] in this model). *)
Lemma mean_centered xs : mean (sub_scalar xs (mean xs)) = 0.
Proof.
  destruct xs as [|x xs]; [apply mean_nil|].
  rewrite mean_sub_scalar by done. lra.
Qed.

Lemma mean_standardize xs : mean (standardize xs) = 0.
Proof.
  unfold standardize. rewrite mean_div_scalar, mean_centered.
  unfold Rdiv. ring.
Qed.

(** The squared deviations of a sequence with mean [0], after division
    by [c]. *)
Lemma sq_dev_div_scalar ys c :
  map (fun y => (y - 0) * (y - 0)) (div_scalar ys c)
  = div_scalar (map (fun y => y * y) ys) (c * c).
Proof.
  unfold div_scalar. rewrite !map_map. apply map_ext. intros y.
  destruct (Req_dec c 0) as [->|Hc].
  - unfold Rdiv. rewrite Rmult_0_l, !Rinv_0. ring.
  - field. done.
Qed.

Lemma var_as_centered xs :
  var xs = mean (map (fun y => y * y) (sub_scalar xs (mean xs))).
Proof. unfold var, sub_scalar. by rewrite map_map. Qed.

Lemma var_standardize xs :
  var (standardize xs) = var xs / (std xs * std xs).
Proof.
  unfold var at 1. rewrite mean_standardize.
  unfold standardize. rewrite sq_dev_div_scalar, mean_div_scalar.
  by rewrite <- var_as_centered.
Qed.

Lemma std_sqr xs : 0 < var xs → std xs * std xs = var xs.
Proof. intros Hv. unfold std. apply sqrt_sqrt. lra. Qed.

Lemma std_pos xs : 0 < var xs → 0 < std xs.
Proof. intros Hv. unfold std. by apply sqrt_lt_R0. Qed.

Lemma std_standardize xs : 0 < var xs → std (standardize xs) = 1.
Proof.
  intros Hv. unfold std at 1.
  rewrite var_standardize, std_sqr by done.
  replace (var xs / var xs) with 1 by (field; lra).
  apply sqrt_1.
Qed.

Lemma var_0_2 : var [0; 2] = 1.
Proof. unfold var, mean, total. simpl. field. Qed.

(** C4, amended.  In exact real arithmetic, for every sequence [xs] of
    positive variance, [standardize(xs)] is
    [(xs - mean(xs)) / stddev(xs)], element by element, and the result
    has mean 0 and standard deviation 1.  (On doubles the same formula
    is evaluated with rounding, and on ill-conditioned data the result
    can be far from mean 0 and standard deviation 1.) *)
Theorem standardize_zero_mean_unit_std xs :
  0 < var xs →
  standardize xs = map (fun x => (x - mean xs) / std xs) xs ∧
  mean (standardize xs) = 0 ∧
  std (standardize xs) = 1.
Proof.
  intros Hv. split; [|split].
  - unfold standardize, div_scalar, sub_scalar. by rewrite map_map.
  - apply mean_standardize.
  - by apply std_standardize.
Qed.

Lemma standardize_zero_mean_unit_std_witness :
  0 < var [0; 2] ∧
  mean (standardize [0; 2]) = 0 ∧ std (standardize [0; 2]) = 1.
Proof.
  assert (Hv : 0 < var [0; 2]) by (rewrite var_0_2; lra).
  split; [exact Hv|].
  exact (proj2 (standardize_zero_mean_unit_std [0; 2] Hv)).
Defined.

(** C5, amended.  In exact real arithmetic, for every sequence of
    positive variance, standardizing the standardized sequence gives
    the standardized sequence again.  (On doubles, a second pass can
    change an ill-conditioned result by much more than rounding.) *)
Theorem standardize_idempotent xs :
  0 < var xs → standardize (standardize xs) = standardize xs.
Proof.
  intros Hv. unfold standardize at 1.
  rewrite mean_standardize, std_standardize by done.
  unfold div_scalar, sub_scalar. rewrite map_map.
  rewrite <- (map_id (standardize xs)) at 2.
  apply map_ext. intros y. field.
Qed.

Lemma standardize_idempotent_witness :
  0 < var [0; 2] ∧
  standardize (standardize [0; 2]) = standardize [0; 2].
Proof.
  assert (Hv : 0 < var [0; 2]) by (rewrite var_0_2; lra).
  split; [exact Hv|].
  exact (standardize_idempotent [0; 2] Hv).
Defined.

End stats_facts.

(** ** [standardize] on doubles *)

Section float_facts.
Import PrimFloat Float64.

(** C4, as stated, fails on doubles.  The sequence
    [1e16, 1e16 + 2] has positive variance (2); its mean is rounded to
    [1e16], so the deviations are 0 and 2 instead of -1 and 1, and the
    standardized sequence is [0, 1.414...]: its mean is above 0.5, not
    near 0, and its standard deviation below 0.75, not near 1. *)
Lemma standardize_doubles_mean_far_from_0 :
  Float64.var close_pair = Some 2%float ∧
  ∃ z m s,
    Float64.standardize close_pair = Some [0%float; z] ∧
    Float64.mean [0%float; z] = Some m ∧
    Float64.std [0%float; z] = Some s ∧
    ltb 0.5 m = true ∧
    ltb s 0.75 = true.
Proof.
  split; [vm_compute; reflexivity|].
  eexists _, _, _.
  split; [vm_compute; reflexivity|].
  split; [vm_compute; reflexivity|].
  split; [vm_compute; reflexivity|].
  split; vm_compute; reflexivity.
Qed.

(** C5, as stated, fails on doubles.  On the same sequence the first
    pass gives [0, 1.414...] and the second pass [-1, 1]: the first
    elements differ by 1 and the second by more than 0.25. *)
Lemma standardize_doubles_not_idempotent :
  Float64.var close_pair = Some 2%float ∧
  ∃ z,
    Float64.standardize close_pair = Some [0%float; z] ∧
    Float64.standardize [0%float; z] = Some [(-1)%float; 1%float] ∧
    ltb 1.25 z = true.
Proof.
  split; [vm_compute; reflexivity|].
  eexists.
  split; [vm_compute; reflexivity|].
  split; vm_compute; reflexivity.
Qed.

(** On data of moderate size nothing is lost: the sequence [0, 2] is
    standardized to [-1, 1], as in exact arithmetic. *)
Example standardize_doubles_0_2 :
  Float64.standardize [0%float; 2%float] = Some [(-1)%float; 1%float].
Proof. vm_compute. reflexivity. Qed.

End float_facts.

Example standardize_0_2 : Stats.standardize [0; 2]%R = [-1; 1]%R.
Proof.
  unfold Stats.standardize, Stats.std. rewrite var_0_2, sqrt_1.
  unfold Stats.div_scalar, Stats.sub_scalar, Stats.mean, Stats.total.
  simpl. f_equal; [field | f_equal; field].
Qed.

(** ** [jitter] *)

Section jitter_facts.
Import Stats.
Local Open Scope R_scope.
Implicit Types (xs : list R) (sigma : R) (st : RandomState).

Lemma add_arrays_length (a b : list R) :
  length a = length b → length (add_arrays a b) = length b.
Proof.
  revert b. induction a as [|x a IH]; intros [|y b] Hlen; simpl in *;
    try done.
  f_equal. apply IH. lia.
Qed.

Lemma add_arrays_lookup (a b : list R) i x y :
  a !! i = Some x → b !! i = Some y →
  add_arrays a b !! i = Some (x + y).
Proof.
  revert b i. induction a as [|x' a IH]; intros [|y' b] [|i] Ha Hb;
    simpl in *; try done.
  - congruence.
  - by apply IH.
Qed.

(** Adding an array of zeros leaves the array unchanged. *)
Lemma add_arrays_zeros (f : nat → R) (js : list nat) xs :
  length js = length xs → (∀ j, f j = 0) →
  add_arrays (map f js) xs = xs.
Proof.
  intros Hlen Hf. revert js Hlen.
  induction xs as [|x xs IH]; intros [|j js] Hlen; simpl in *; try done.
  rewrite Hf, IH by lia. f_equal. lra.
Qed.

(** The draws of [normal] when the scale is accepted. *)
Lemma normal_ok loc scale n st :
  0 <= scale →
  normal loc scale n st
  = (Ok (map (fun i => loc + scale * st i) (seq 0 n)),
     fun i => st (n + i)%nat).
Proof.
  intros Hs. unfold normal. destruct (Rlt_dec scale 0); [lra | done].
Qed.

Lemma normal_negative loc scale n st :
  scale < 0 → normal loc scale n st = (Raise ValueError, st).
Proof.
  intros Hs. unfold normal. destruct (Rlt_dec scale 0); [done | lra].
Qed.

Lemma jitter_ok xs sigma st :
  0 <= sigma →
  jitter xs sigma st
  = (Ok (add_arrays (map (fun i => 0 + sigma * st i)
                         (seq 0 (length xs))) xs),
     fun i => st (length xs + i)%nat).
Proof. intros Hs. unfold jitter. by rewrite normal_ok. Qed.

(** A negative standard deviation is refused by the generator. *)
Lemma jitter_negative xs sigma st :
  sigma < 0 → jitter xs sigma st = (Raise ValueError, st).
Proof. intros Hs. unfold jitter. by rewrite normal_negative. Qed.

(** C9.  [jitter(seq, std=0)] returns a sequence equal to [seq]; and
    for every standard deviation [sigma], [jitter] returns a sequence
    of the length of [seq] whose [i]-th element is the [i]-th element
    of [seq] plus the noise [0 + sigma * z_i], where [z_i] is the
    [i]-th standard normal variate drawn from the generator: one
    separate draw per element, scaled to mean zero and standard
    deviation [sigma]. *)
Theorem jitter_adds_noise xs sigma st :
  (jitter xs 0 st).1 = Ok xs ∧
  (0 <= sigma →
   ∃ ys, (jitter xs sigma st).1 = Ok ys ∧
         length ys = length xs ∧
         ∀ i x, xs !! i = Some x →
                ys !! i = Some ((0 + sigma * st i) + x)).
Proof.
  split.
  - rewrite jitter_ok by lra. simpl. f_equal.
    apply add_arrays_zeros; [by rewrite length_seq | intros j; lra].
  - intros Hs. rewrite jitter_ok by done. simpl.
    eexists; split; [done|]. split.
    + apply add_arrays_length. by rewrite length_map, length_seq.
    + intros i x Hx. apply add_arrays_lookup; [|done].
      rewrite list_lookup_fmap.
      rewrite lookup_seq_lt by (by apply lookup_lt_Some in Hx). done.
Qed.

Lemma jitter_adds_noise_witness :
  0 <= 2 ∧
  ∃ ys, (jitter [1; 5] 2 (fun i => INR i)).1 = Ok ys ∧
        length ys = 2%nat ∧
        ∀ i x, [1; 5] !! i = Some x →
               ys !! i = Some ((0 + 2 * INR i) + x).
Proof.
  assert (Hs : 0 <= 2) by lra.
  split; [exact Hs|].
  exact (proj2 (jitter_adds_noise [1; 5] 2 (fun i => INR i)) Hs).
Defined.

(** The generator has advanced by one draw per element. *)
Lemma jitter_advances xs sigma st :
  0 <= sigma → ∀ i, (jitter xs sigma st).2 i = st (length xs + i)%nat.
Proof. intros Hs i. by rewrite jitter_ok. Qed.

End jitter_facts.

(** ** [plot_kde] *)

Section plot_kde_facts.
Import Stats Plot.
Local Open Scope R_scope.
Implicit Types (sample : list R) (name : string)
         (options : gmap string value).

Lemma var_singleton (x : R) : var [x] = 0.
Proof. unfold var, mean, total. simpl. field. Qed.

(** A sample of positive variance has at least two elements. *)
Lemma var_pos_two sample : 0 < var sample → (2 <= length sample)%nat.
Proof.
  intros Hv. destruct sample as [|x [|y rest]]; simpl; try lia.
  - rewrite var_nil in Hv. lra.
  - rewrite var_singleton in Hv. lra.
Qed.

(** The fit succeeds on a sample of positive variance. *)
Lemma gaussian_kde_ok sample :
  0 < var sample → gaussian_kde sample = Ok (FittedKde sample).
Proof.
  intros Hv. pose proof (var_pos_two _ Hv) as Hlen. unfold gaussian_kde.
  destruct (Nat.leb_spec (length sample) 1) as [Hle|_]; [lia|].
  destruct (Req_dec_T (var sample) 0) as [Hz|_]; [lra | done].
Qed.


(** The whole trace of [plot_kde] after a successful fit: the marker,
    then the curve. *)
Lemma plot_kde_calls sample name options :
  0 < var sample →
  plot_kde sample name options
  = ([Axvline (mean sample) ":" "0.3";
      PdfPlot (MkPdf (FittedKde sample)
                     (mean sample - 4 * std sample,
                      mean sample + 4 * std sample) name) options],
     Ok tt).
Proof. intros Hv. unfold plot_kde. by rewrite gaussian_kde_ok. Qed.



Lemma var_0_2_pos : 0 < var [0; 2].
Proof. rewrite var_0_2. lra. Qed.







End plot_kde_facts.

(** ** [display_summary] *)

Section display_summary_facts.
Import Summary.
Implicit Types (result : RegressionResults) (params : table).

Lemma display_summary_rsquared result params r :
  summary_tables result !! 1%nat = Some params →
  rsquared result = Some r →
  display_summary result
  = ([Display params; Display (rsquared_table r)], Ok tt).
Proof.
  intros Hp Hr. unfold display_summary, getitem. by rewrite Hp, Hr.
Qed.

Lemma display_summary_prsquared result params pr :
  summary_tables result !! 1%nat = Some params →
  rsquared result = None → prsquared result = Some pr →
  display_summary result
  = ([Display params; Display (prsquared_table pr)], Ok tt).
Proof.
  intros Hp Hr Hpr. unfold display_summary, getitem.
  by rewrite Hp, Hr, Hpr.
Qed.

Lemma display_summary_neither result params :
  summary_tables result !! 1%nat = Some params →
  rsquared result = None → prsquared result = None →
  display_summary result = ([Display params], Ok tt).
Proof.
  intros Hp Hr Hpr. unfold display_summary, getitem.
  by rewrite Hp, Hr, Hpr.
Qed.

(** A summary with fewer than two tables: [tables[1]] raises and
    nothing is displayed. *)
Lemma display_summary_no_params result :
  summary_tables result !! 1%nat = None →
  display_summary result = ([], Raise IndexError).
Proof. intros Hp. unfold display_summary, getitem. by rewrite Hp. Qed.

(** C6.  With [params] the coefficient table [summary().tables[1]] of
    the result: when the result has an [rsquared] attribute,
    [display_summary] displays exactly two tables, [params] and then
    the one-row R-squared table; when it has neither [rsquared] nor
    [prsquared], it displays exactly one table, [params], and
    returns. *)
Theorem display_summary_two_tables_or_one result params :
  summary_tables result !! 1%nat = Some params →
  (∀ r, rsquared result = Some r →
        calls (display_summary result)
        = [Display params; Display (rsquared_table r)] ∧
        length (calls (display_summary result)) = 2%nat ∧
        outcome (display_summary result) = Ok tt) ∧
  (rsquared result = None → prsquared result = None →
   calls (display_summary result) = [Display params] ∧
   length (calls (display_summary result)) = 1%nat ∧
   outcome (display_summary result) = Ok tt).
Proof.
  intros Hp. split.
  - intros r Hr. by rewrite (display_summary_rsquared _ _ _ Hp Hr).
  - intros Hr Hpr. by rewrite (display_summary_neither _ _ Hp Hr Hpr).
Qed.

(** C10.  When the result has both attributes, the [rsquared] probe
    wins: the second table is the R-squared row, built from
    [rsquared], and the pseudo-R-squared row is not displayed. *)
Theorem display_summary_prefers_rsquared result params r pr :
  summary_tables result !! 1%nat = Some params →
  rsquared result = Some r →
  prsquared result = Some pr →
  calls (display_summary result)
  = [Display params; Display (rsquared_table r)] ∧
  calls (display_summary result)
  ≠ [Display params; Display (prsquared_table pr)].
Proof.
  intros Hp Hr _. rewrite (display_summary_rsquared _ _ _ Hp Hr).
  split; [done|]. unfold calls; simpl. intros Heq.
  injection Heq as Heq. discriminate Heq.
Qed.


Lemma display_summary_two_tables_or_one_witness :
summary_tables ols_result !! 1%nat
= Some (SimpleTable [[Lit "Intercept"; Lit "1.5"]; [Lit "x"; Lit "0.25"]])
∧ rsquared ols_result = Some 0.5%R
∧ length (calls (display_summary ols_result)) = 2%nat.
Proof.
assert (Hp : summary_tables ols_result !! 1%nat
             = Some (SimpleTable [[Lit "Intercept"; Lit "1.5"];
                                  [Lit "x"; Lit "0.25"]]))
  by reflexivity.
assert (Hr : rsquared ols_result = Some 0.5%R) by reflexivity.
split; [exact Hp|]. split; [exact Hr|].
exact (proj1 (proj2 (proj1
  (display_summary_two_tables_or_one ols_result _ Hp) _ Hr))).
Defined.

Lemma display_summary_prefers_rsquared_witness :
summary_tables both_result !! 1%nat
= Some (SimpleTable [[Lit "Intercept"; Lit "1.5"]; [Lit "x"; Lit "0.25"]])
∧ rsquared both_result = Some 0.5%R
∧ prsquared both_result = Some 0.25%R
∧ calls (display_summary both_result)
  = [Display (SimpleTable [[Lit "Intercept"; Lit "1.5"];
                           [Lit "x"; Lit "0.25"]]);
     Display (rsquared_table 0.5%R)].
Proof.
assert (Hp : summary_tables both_result !! 1%nat
             = Some (SimpleTable [[Lit "Intercept"; Lit "1.5"];
                                  [Lit "x"; Lit "0.25"]]))
  by reflexivity.
assert (Hr : rsquared both_result = Some 0.5%R) by reflexivity.
assert (Hpr : prsquared both_result = Some 0.25%R)
  by reflexivity.
split; [exact Hp|]. split; [exact Hr|]. split; [exact Hpr|].
exact (proj1 (display_summary_prefers_rsquared both_result _ _ _
                Hp Hr Hpr)).
Defined.

End display_summary_facts.

(** ** [legend] *)

Section legend_facts.
Import Underride Plot.
Implicit Types (ax : Axes) (options : gmap string value).

Lemma filter_nil_iff {A : Type} (f : A → bool) (l : list A) :
  List.filter f l = [] ↔ ∀ a, a ∈ l → f a = false.
Proof.
  induction l as [|x l IH]; simpl.
  - split; [|done]. intros _ a Ha. by apply elem_of_nil in Ha.
  - destruct (f x) eqn:Hx; split.
    + discriminate.
    + intros Hall. specialize (Hall x (list_elem_of_here _ _)). congruence.
    + intros Hnil a Ha. apply elem_of_cons in Ha as [->|Ha]; [done|].
      by apply IH.
    + intros Hall. apply IH. intros a Ha. apply Hall. by right.
Qed.

(** The handles are empty exactly when no artist is labeled. *)
Lemma handles_nil_iff ax :
  (get_legend_handles_labels ax).1 = [] ↔
  ∀ a, a ∈ artists ax → labeled a = false.
Proof. apply filter_nil_iff. Qed.


Lemma ax_legend_calls handles labels options :
  calls (ax_legend handles labels options)
  = [AxLegend handles labels options].
Proof.
  unfold ax_legend. destruct (options !! "loc") as [v|]; [|done].
  by destruct (valid_loc v).
Qed.

Lemma ax_legend_outcome handles labels options v :
  options !! "loc" = Some v → valid_loc v = true →
  outcome (ax_legend handles labels options) = Ok tt.
Proof. intros Hloc Hv. unfold ax_legend. by rewrite Hloc, Hv. Qed.

(** With a labeled artist, one call [ax.legend(handles, labels,
    **options)]: the labeled artists, their labels, and the caller's
    options completed by [loc="best"]. *)
Lemma legend_drawn ax options a :
  a ∈ artists ax → labeled a = true →
  calls (legend ax options)
  = [AxLegend (List.filter labeled (artists ax))
              (map artist_label (List.filter labeled (artists ax)))
              (underride options [("loc", VStr "best")])].
Proof.
  intros Ha Hl. unfold legend, get_legend_handles_labels.
  destruct (List.filter labeled (artists ax)) as [|h hs] eqn:Hf.
  - rewrite (proj1 (filter_nil_iff _ _) Hf a Ha) in Hl. discriminate.
  - apply ax_legend_calls.
Qed.



(** The location passed on is the caller's, or ["best"]. *)
Lemma legend_loc ax options a :
  a ∈ artists ax → labeled a = true →
  ∃ handles labels options',
    calls (legend ax options) = [AxLegend handles labels options'] ∧
    options' !! "loc" = Some (default (VStr "best") (options !! "loc")).
Proof.
  intros Ha Hl. rewrite (legend_drawn _ _ _ Ha Hl).
  eexists _, _, _. split; [done|].
  rewrite lookup_underride. by destruct (options !! "loc").
Qed.

End legend_facts.

(** Axes with an unlabeled line ([_child0]) and a line labeled
    ["data"]: the legend is drawn for the labeled line only. *)
Example legend_one_labeled :
  calls (Plot.legend
           (Plot.MkAxes [MkArtist 0 "_child0"; MkArtist 1 "data";
                         MkArtist 2 ""] []) ∅)
  = [AxLegend [MkArtist 1 "data"] ["data"] {[ "loc" := VStr "best" ]}].
Proof. vm_compute. reflexivity. Qed.

Example legend_none_labeled :
  calls (Plot.legend
           (Plot.MkAxes [MkArtist 0 "_child0"; MkArtist 2 ""] []) ∅)
  = [].
Proof. reflexivity. Qed.

(** A bar plot labeled ["bars"] drawn before a line labeled ["fit"]: the
    line, a child of the axes, comes before the bar container. *)
Example legend_line_before_bars :
  calls (Plot.legend
           (Plot.MkAxes [MkArtist 1 "fit"] [MkArtist 0 "bars"]) ∅)
  = [AxLegend [MkArtist 1 "fit"; MkArtist 0 "bars"] ["fit"; "bars"]
              {[ "loc" := VStr "best" ]}].
Proof. vm_compute. reflexivity. Qed.

(** ** [value_counts] *)

Section counting_facts.
Import Underride Counting.
Implicit Types (s series : Series) (v w : option Z)
         (options : gmap string value) (counts : Counts).

Lemma elem_of_uniques v s : v ∈ uniques s ↔ v ∈ s.
Proof.
  induction s as [|x s IH]; simpl; [done|].
  rewrite !elem_of_cons, list_elem_of_filter, IH. split.
  - intros [->|[_ Hin]]; auto.
  - intros [->|Hin]; [auto|]. destruct (decide (v = x)); auto.
Qed.

Lemma NoDup_uniques s : NoDup (uniques s).
Proof.
  induction s as [|x s IH]; simpl; [constructor|].
  apply NoDup_cons. split.
  - rewrite list_elem_of_filter. by intros [Hne _].
  - by apply NoDup_filter.
Qed.

Lemma count_of_cons v x s :
  count_of v (x :: s) = (if decide (x = v) then S (count_of v s)
                         else count_of v s).
Proof. unfold count_of. rewrite filter_cons. by case_decide. Qed.

(** A value occurs in the series exactly when its count is positive. *)
Lemma count_of_pos v s : v ∈ s ↔ 0 < count_of v s.
Proof.
  induction s as [|x s IH].
  - split; [by intros Hin%elem_of_nil | unfold count_of; simpl; lia].
  - rewrite count_of_cons, elem_of_cons. case_decide as Hx.
    + split; [lia | auto].
    + rewrite <- IH. split; [intros [->|Hin]; done | auto].
Qed.

(** Dropping the missing entries does not change the other counts. *)
Lemma count_of_dropna v s :
  v ≠ None → count_of v (filter (λ w, w ≠ None) s) = count_of v s.
Proof.
  intros Hv. unfold count_of. rewrite list_filter_filter. f_equal.
  apply list_filter_iff. intros w. split; [tauto|].
  intros ->. done.
Qed.

Lemma elem_of_kept dropna v series :
  v ∈ kept dropna series ↔ v ∈ series ∧ (v = None → dropna = false).
Proof.
  destruct dropna; simpl.
  - rewrite list_elem_of_filter. split.
    + intros [Hv Hin]. split; [done|]. intros ->. done.
    + intros [Hin Hna]. split; [|done]. intros ->. by specialize (Hna eq_refl).
  - tauto.
Qed.

Lemma count_of_kept dropna v series :
  v ∈ kept dropna series →
  count_of v (kept dropna series) = count_of v series.
Proof.
  intros [Hin Hna]%elem_of_kept. destruct dropna; simpl; [|done].
  apply count_of_dropna. intros ->. by specialize (Hna eq_refl).
Qed.

Lemma elem_of_tally v n s :
  (v, n) ∈ tally s ↔ v ∈ s ∧ n = count_of v s.
Proof.
  unfold tally. rewrite list_elem_of_fmap. split.
  - intros (w & [= -> ->] & Hin). by rewrite elem_of_uniques in Hin.
  - intros [Hin ->]. exists v. by rewrite elem_of_uniques.
Qed.

Lemma tally_index s : (tally s).*1 = uniques s.
Proof.
  unfold tally. rewrite <- list_fmap_compose.
  rewrite <- (list_fmap_id (uniques s)) at 2. by apply list_fmap_ext.
Qed.

Global Instance index_le_trans : Transitive index_le.
Proof. intros [a|] [b|] [c|]; simpl; try done. lia. Qed.

Global Instance index_le_total : Total index_le.
Proof. intros [a|] [b|]; simpl; auto. lia. Qed.

Global Instance by_index_trans : Transitive by_index.
Proof. intros p q r. unfold by_index. apply index_le_trans. Qed.

Global Instance by_index_total : Total by_index.
Proof. intros p q. unfold by_index. apply index_le_total. Qed.

Lemma index_le_lt v w : index_le v w → v ≠ w → index_lt v w.
Proof.
  destruct v as [a|], w as [b|]; simpl; try done.
  intros Hle Hne. assert (a ≠ b) by congruence. lia.
Qed.

(** A sorted index without repetition is strictly sorted. *)
Lemma StronglySorted_index_strict (l : list (option Z)) :
  StronglySorted index_le l → NoDup l → StronglySorted index_lt l.
Proof.
  induction 1 as [|v l Hs IH Hall]; intros Hnd; [constructor|].
  apply NoDup_cons in Hnd as [Hnin Hnd]. constructor; [by apply IH|].
  rewrite Forall_forall in Hall |- *. intros w Hw.
  apply index_le_lt; [by apply Hall|]. by intros ->.
Qed.

Lemma sort_index_Permutation counts : sort_index counts ≡ₚ counts.
Proof. apply merge_sort_Permutation. Qed.

Lemma sort_index_sorted counts :
  StronglySorted index_le (sort_index counts).*1.
Proof.
  apply (StronglySorted_fmap fst by_index index_le); [done|].
  apply StronglySorted_merge_sort; apply _.
Qed.

(** The keyword binding succeeds on accepted options, once [dropna] has
    been underridden, and drops missing entries only at the caller's
    request. *)
Lemma bind_args_underride options :
  accepted options →
  ∃ sort ascending,
    bind_args (underride options [("dropna", VBool false)])
    = Ok (MkArgs sort ascending (dropna_of options)).
Proof.
  intros Hacc. unfold bind_args. rewrite decide_True; cycle 1.
  { apply elem_of_subseteq. intros k [x Hk]%elem_of_dom.
    rewrite lookup_underride in Hk.
    destruct (options !! k) as [y|] eqn:Hy.
    - by destruct (map_Forall_lookup_1 _ _ _ _ Hacc Hy).
    - simpl in Hk. apply lookup_insert_Some in Hk as [[<- _]|[_ Hk]].
      + unfold keywords. set_solver.
      + by rewrite lookup_empty in Hk. }
  assert (Hb : ∀ name dflt, name ≠ "dropna" →
            ∃ b, kw_bool (underride options [("dropna", VBool false)])
                         name dflt = Ok b).
  { intros name dflt Hne. unfold kw_bool. rewrite lookup_underride.
    destruct (options !! name) as [y|] eqn:Hy.
    - destruct (map_Forall_lookup_1 _ _ _ _ Hacc Hy) as [_ [b ->]]. eauto.
    - simpl. rewrite lookup_insert_ne, lookup_empty by done. eauto. }
  destruct (Hb "sort" true) as [bs ->]; [done|].
  destruct (Hb "ascending" false) as [ba ->]; [done|].
  exists bs, ba. unfold kw_bool, dropna_of. rewrite lookup_underride.
  destruct (options !! "dropna") as [y|] eqn:Hy; [|done].
  by destruct (map_Forall_lookup_1 _ _ _ _ Hacc Hy) as [_ [b ->]].
Qed.

(** What [value_counts] returns: the tally of the kept entries, put in
    index order. *)
Lemma value_counts_ok series options :
  accepted options →
  ∃ counts,
    value_counts series options = Ok (sort_index counts) ∧
    counts ≡ₚ tally (kept (dropna_of options) series).
Proof.
  intros Hacc. unfold value_counts, series_value_counts.
  destruct (bind_args_underride options Hacc) as (bs & ba & ->). simpl.
  eexists. split; [done|].
  destruct bs; [apply merge_sort_Permutation | done].
Qed.

Lemma value_counts_items series options :
  accepted options →
  ∃ counts,
    value_counts series options = Ok counts ∧
    StronglySorted index_lt counts.*1 ∧
    ∀ v n, (v, n) ∈ counts ↔
           v ∈ series ∧ n = count_of v series ∧
           (v = None → dropna_of options = false).
Proof.
  intros Hacc.
  destruct (value_counts_ok series options Hacc) as (c & -> & Hperm).
  eexists. split; [done|]. split.
  - apply StronglySorted_index_strict; [apply sort_index_sorted|].
    rewrite sort_index_Permutation, Hperm, tally_index.
    apply NoDup_uniques.
  - intros v n. rewrite sort_index_Permutation, Hperm, elem_of_tally.
    split.
    + intros [Hin ->]. rewrite count_of_kept by done.
      apply elem_of_kept in Hin. tauto.
    + intros (Hin & -> & Hna).
      assert (v ∈ kept (dropna_of options) series)
        by (apply elem_of_kept; done).
      by rewrite count_of_kept.
Qed.

Lemma dropna_default options :
  options !! "dropna" = None → dropna_of options = false.
Proof. intros Hd. unfold dropna_of. by rewrite Hd. Qed.

Lemma dropna_supplied options b :
  options !! "dropna" = Some (VBool b) → dropna_of options = b.
Proof. intros Hd. unfold dropna_of. by rewrite Hd. Qed.

(** C8.  For every series, [value_counts] returns the items
    (value, count) such that: the values are strictly ascending (so each
    distinct value appears once), with the missing value last; a value
    is listed exactly when it occurs in the series, with its number of
    occurrences, the missing value being listed unless dropped.  Missing
    entries are counted when the caller gives no [dropna]
    ([dropna=False] is underridden), and the caller's own [dropna]
    decides otherwise.  On [1, 1, 2, 3, 3, 3] the result is
    [(1, 2), (2, 1), (3, 3)]. *)
Theorem value_counts_sorted_with_missing :
  (∀ series options,
      accepted options →
      ∃ counts,
        value_counts series options = Ok counts ∧
        StronglySorted index_lt counts.*1 ∧
        (∀ z n, (Some z, n) ∈ counts ↔
                Some z ∈ series ∧ n = count_of (Some z) series) ∧
        (options !! "dropna" = None →
         ∀ n, (None, n) ∈ counts ↔
              None ∈ series ∧ n = count_of None series) ∧
        (∀ b, options !! "dropna" = Some (VBool b) →
              ∀ n, (None, n) ∈ counts ↔
                   None ∈ series ∧ n = count_of None series ∧ b = false)) ∧
  value_counts [Some 1; Some 1; Some 2; Some 3; Some 3; Some 3]%Z ∅
  = Ok [(Some 1%Z, 2); (Some 2%Z, 1); (Some 3%Z, 3)].
Proof.
  split; [|vm_compute; reflexivity].
  intros series options Hacc.
  destruct (value_counts_items series options Hacc)
    as (counts & Hvc & Hsorted & Hitems).
  exists counts. split; [done|]. split; [done|]. split; [|split].
  - intros z n. rewrite Hitems. split; [tauto|].
    intros [Hin ->]. done.
  - intros Hd n. rewrite Hitems, (dropna_default _ Hd). tauto.
  - intros b Hd n. rewrite Hitems, (dropna_supplied _ _ Hd). split.
    + intros (Hin & -> & Hb). auto.
    + intros (Hin & -> & ->). auto.
Qed.

Lemma value_counts_sorted_with_missing_witness :
  accepted ∅ ∧
  ∃ counts,
    value_counts [Some 3; None; Some 1; Some 3; None]%Z ∅ = Ok counts ∧
    StronglySorted index_lt counts.*1 ∧
    ∀ n, (None, n) ∈ counts ↔
         None ∈ [Some 3; None; Some 1; Some 3; None]%Z ∧
         n = count_of None [Some 3; None; Some 1; Some 3; None]%Z.
Proof.
  assert (Hacc : accepted ∅) by apply map_Forall_empty.
  split; [exact Hacc|].
  destruct (proj1 value_counts_sorted_with_missing
              [Some 3; None; Some 1; Some 3; None]%Z ∅ Hacc)
    as (counts & Hvc & Hsorted & _ & Hna & _).
  exists counts. split; [exact Hvc|]. split; [exact Hsorted|].
  exact (Hna (lookup_empty _)).
Defined.

(** With missing entries: counted by default, dropped on request. *)
Example value_counts_nan_default :
  value_counts [Some 3; None; Some 1; Some 3; None]%Z ∅
  = Ok [(Some 1%Z, 1); (Some 3%Z, 2); (None, 2)].
Proof. vm_compute. reflexivity. Qed.

Example value_counts_nan_dropped :
  value_counts [Some 3; None; Some 1; Some 3; None]%Z
               {[ "dropna" := VBool true ]}
  = Ok [(Some 1%Z, 1); (Some 3%Z, 2)].
Proof. vm_compute. reflexivity. Qed.

(** [sort_index] undoes whatever order the caller asks pandas for. *)
Example value_counts_sort_overridden :
  value_counts [Some 3; None; Some 1; Some 3; None]%Z
               {[ "sort" := VBool true; "ascending" := VBool true ]}
  = Ok [(Some 1%Z, 1); (Some 3%Z, 2); (None, 2)].
Proof. vm_compute. reflexivity. Qed.

End counting_facts.

(** * Further properties *)

(** ** More on the underride protocol *)

Section underride_more.
Import Underride.
Context {V : Type}.
Implicit Types (d : gmap string V) (options : list (string * V)).

(** X1.  The result of [underride] is exactly the caller's mapping
    completed by the defaults: the left-biased union of [d] with the
    defaults, whose keys are those of [d] and those of the defaults and
    no other, and which contains [d]. *)
Theorem underride_exact d options :
  underride d options = d ∪ list_to_map options ∧
  dom (underride d options) = dom d ∪ list_to_set options.*1 ∧
  d ⊆ underride d options.
Proof.
  assert (Hu : underride d options = d ∪ list_to_map options).
  { apply map_eq; intros k. rewrite lookup_underride, lookup_union.
    destruct (d !! k), (list_to_map options !! k); done. }
  split; [done|]. split.
  - rewrite Hu, dom_union_L. f_equal. apply dom_list_to_map_L.
  - rewrite Hu. apply map_union_subseteq_l.
Qed.

(** X2.  Applying the same defaults a second time changes nothing. *)
Theorem underride_idempotent d options :
  underride (underride d options) options = underride d options.
Proof.
  apply map_eq; intros k. rewrite !lookup_underride.
  destruct (d !! k); [done|]. by destruct (list_to_map options !! k).
Qed.

(** X3.  Two rounds of defaults are one round with the two lists put
    end to end, and a default of the first round is not replaced by one
    of the second. *)
Theorem underride_twice d options1 options2 :
  underride (underride d options1) options2
  = underride d (options1 ++ options2) ∧
  ∀ key val,
    d !! key = None →
    (list_to_map options1 : gmap string V) !! key = Some val →
    underride (underride d options1) options2 !! key = Some val.
Proof.
  split.
  - revert d. induction options1 as [|[key val] rest IH]; intros d; [done|].
    simpl. apply IH.
  - intros key val Hd H1. rewrite !lookup_underride, Hd. by rewrite H1.
Qed.

(** X4.  A default whose key the caller left out is inserted with the
    value given for it (the keys of keyword arguments are distinct). *)
Theorem underride_default_value d options key val :
  NoDup options.*1 → (key, val) ∈ options → d !! key = None →
  underride d options !! key = Some val.
Proof.
  intros Hnd Hin Hk. rewrite lookup_underride, Hk.
  by apply elem_of_list_to_map_1.
Qed.

(** X5.  When the caller has set every key of the defaults, [underride]
    returns the mapping unchanged. *)
Theorem underride_all_set d options :
  (∀ key, key ∈ options.*1 → is_Some (d !! key)) →
  underride d options = d.
Proof.
  intros Hset. apply map_eq; intros k. rewrite lookup_underride.
  destruct (d !! k) as [v|] eqn:Hk; [done|].
  apply not_elem_of_list_to_map_1. intros Hin.
  destruct (Hset k Hin) as [v Hv]. congruence.
Qed.

End underride_more.

Lemma underride_twice_witness :
  Underride.underride (Underride.underride (∅ : gmap string string) [("dropna", "False")])
            [("dropna", "True")] !! "dropna" = Some "False".
Proof.
  apply (proj2 (underride_twice (∅ : gmap string string)
                  [("dropna", "False")] [("dropna", "True")])).
  - apply lookup_empty.
  - vm_compute. reflexivity.
Defined.

Lemma underride_default_value_witness :
  Underride.underride ({[ "color" := "red" ]} : gmap string string)
            [("color", "blue"); ("alpha", "0.6")] !! "alpha"
  = Some "0.6".
Proof.
  apply underride_default_value.
  - simpl. apply NoDup_cons. split; [|apply NoDup_singleton].
    intros Hin%list_elem_of_singleton. discriminate.
  - apply list_elem_of_further, list_elem_of_here.
  - vm_compute. reflexivity.
Defined.

Lemma underride_all_set_witness :
  Underride.underride ({[ "loc" := "upper left" ]} : gmap string string)
            [("loc", "best")]
  = {[ "loc" := "upper left" ]}.
Proof.
  apply underride_all_set. intros key Hin.
  apply list_elem_of_singleton in Hin as ->.
  exists "upper left". vm_compute. reflexivity.
Defined.


(** ** More on [value_counts] *)

Section counting_more.
Import Underride Counting More.
Implicit Types (s t series : Series) (v w x : option Z)
         (options : gmap string value) (counts : Counts).

Lemma filter_all {A : Type} (P : A → Prop) `{!∀ a, Decision (P a)}
      (l : list A) :
  (∀ a, a ∈ l → P a) → filter P l = l.
Proof.
  induction l as [|a l IH]; intros Hall; [done|].
  rewrite filter_cons_True by (apply Hall; left).
  f_equal. apply IH. intros b Hb. apply Hall. by right.
Qed.

(** Counting in a series without [x]: nothing for [x], the same for
    the other values. *)
Lemma count_of_without x v t :
  count_of v (filter (λ w, w ≠ x) t)
  = if decide (v = x) then 0 else count_of v t.
Proof.
  unfold count_of. rewrite list_filter_filter. case_decide as Hv.
  - subst v. rewrite (list_filter_iff _ (λ _, False)); [|tauto].
    induction t as [|a t IH]; [done|].
    by rewrite filter_cons_False by tauto.
  - f_equal. apply list_filter_iff. intros w. split; [tauto|].
    intros ->. done.
Qed.

Lemma sum_counts_without x (l : list (option Z)) t :
  sum_list ((λ v, count_of v t) <$> filter (λ w, w ≠ x) l)
  = sum_list ((λ v, count_of v (filter (λ w, w ≠ x) t)) <$> l).
Proof.
  induction l as [|a l IH]; [done|].
  rewrite filter_cons. csimpl. rewrite count_of_without.
  case_decide as Ha; case_decide as Ha'; try done; csimpl; rewrite IH; done.
Qed.

Lemma length_filter_split x (l : list (option Z)) t :
  length (filter (λ w, w ∈ x :: l) t)
  = count_of x t + length (filter (λ w, w ∈ l) (filter (λ w, w ≠ x) t)).
Proof.
  unfold count_of.
  rewrite <- (filter_app_complement (λ w, w = x) t) at 1.
  rewrite filter_app, length_app. f_equal.
  - rewrite list_filter_filter. f_equal. apply list_filter_iff.
    intros w. split; [tauto|]. intros ->. split; [left|done].
  - rewrite !list_filter_filter. f_equal. apply list_filter_iff.
    intros w. rewrite elem_of_cons. tauto.
Qed.

Lemma sum_counts_uniques s t :
  sum_list ((λ v, count_of v t) <$> uniques s)
  = length (filter (λ w, w ∈ s) t).
Proof.
  revert t. induction s as [|x s IH]; intros t.
  - simpl. rewrite (list_filter_iff _ (λ _, False)).
    + induction t as [|a t IHt]; [done|].
      by rewrite filter_cons_False by tauto.
    + intros w. split; [by intros ?%elem_of_nil | done].
  - simpl. rewrite sum_counts_without, IH, length_filter_split. done.
Qed.

(** The counts of a tally add up to the number of entries. *)
Lemma total_count_tally s : total_count (tally s) = length s.
Proof.
  unfold total_count, tally. rewrite <- list_fmap_compose.
  change (sum_list ((λ v, count_of v s) <$> uniques s) = length s).
  rewrite sum_counts_uniques. by rewrite filter_all.
Qed.

Lemma index_le_antisym v w : index_le v w → index_le w v → v = w.
Proof.
  destruct v as [a|], w as [b|]; simpl; try done.
  intros. f_equal. lia.
Qed.

Lemma NoDup_fst_functional counts v n m :
  NoDup counts.*1 → (v, n) ∈ counts → (v, m) ∈ counts → n = m.
Proof.
  induction counts as [|[k c] counts IH]; intros Hnd Hn Hm.
  - by apply elem_of_nil in Hn.
  - csimpl in Hnd. apply NoDup_cons in Hnd as [Hk Hnd].
    apply elem_of_cons in Hn as [Hn|Hn];
      apply elem_of_cons in Hm as [Hm|Hm].
    + congruence.
    + destruct Hk. apply list_elem_of_fmap. exists (v, m).
      split; [|done]. simpl. congruence.
    + destruct Hk. apply list_elem_of_fmap. exists (v, n).
      split; [|done]. simpl. congruence.
    + by apply IH.
Qed.

(** Index order is the same for every arrangement of the same items. *)
Lemma sort_index_unique counts counts' :
  counts ≡ₚ counts' → NoDup counts'.*1 →
  sort_index counts = sort_index counts'.
Proof.
  intros Hperm Hnd.
  apply (StronglySorted_unique_strong by_index).
  - intros [v n] [w m] Hx Hy Hle Hge.
    rewrite sort_index_Permutation, Hperm in Hx.
    rewrite sort_index_Permutation in Hy.
    assert (v = w) as -> by (by apply index_le_antisym).
    f_equal. by apply (NoDup_fst_functional counts' w).
  - apply StronglySorted_merge_sort; apply _.
  - apply StronglySorted_merge_sort; apply _.
  - by rewrite !sort_index_Permutation.
Qed.

Lemma NoDup_tally_index s : NoDup (tally s).*1.
Proof. rewrite tally_index. apply NoDup_uniques. Qed.

(** The result of [value_counts] in closed form. *)
Lemma value_counts_canonical series options :
  accepted options →
  value_counts series options
  = Ok (sort_index (tally (kept (dropna_of options) series))).
Proof.
  intros Hacc.
  destruct (value_counts_ok series options Hacc) as (c & -> & Hperm).
  f_equal. apply sort_index_unique; [done | apply NoDup_tally_index].
Qed.

Lemma count_of_Permutation v s t : s ≡ₚ t → count_of v s = count_of v t.
Proof. intros Hp. unfold count_of. by rewrite Hp. Qed.

Lemma kept_Permutation dropna s t :
  s ≡ₚ t → kept dropna s ≡ₚ kept dropna t.
Proof. intros Hp. destruct dropna; simpl; by rewrite Hp. Qed.

Lemma tally_Permutation s t : s ≡ₚ t → tally s ≡ₚ tally t.
Proof.
  intros Hp. apply NoDup_Permutation.
  - apply (NoDup_fmap_1 fst), NoDup_tally_index.
  - apply (NoDup_fmap_1 fst), NoDup_tally_index.
  - intros [v n]. rewrite !elem_of_tally.
    rewrite (count_of_Permutation v s t Hp).
    by rewrite (elem_of_Permutation_proper v s t Hp).
Qed.

(** X6.  The counts returned by [value_counts] add up to the number of
    entries counted: the length of the series when the caller gives no
    [dropna] (missing entries included), the number of non-missing
    entries when the caller asks for [dropna=True]; never more than the
    length of the series. *)
Theorem value_counts_total series options :
  accepted options →
  ∃ counts,
    value_counts series options = Ok counts ∧
    (options !! "dropna" = None → total_count counts = length series) ∧
    (options !! "dropna" = Some (VBool true) →
     total_count counts = length (filter (λ v, v ≠ None) series)) ∧
    total_count counts ≤ length series.
Proof.
  intros Hacc. rewrite (value_counts_canonical _ _ Hacc).
  eexists. split; [done|].
  assert (Ht : total_count
                 (sort_index (tally (kept (dropna_of options) series)))
               = length (kept (dropna_of options) series)).
  { unfold total_count. rewrite sort_index_Permutation.
    apply total_count_tally. }
  rewrite Ht. split; [|split].
  - intros Hd. by rewrite (dropna_default _ Hd).
  - intros Hd. by rewrite (dropna_supplied _ _ Hd).
  - destruct (dropna_of options); simpl; [apply length_filter | done].
Qed.

Lemma value_counts_total_witness :
  ∃ counts,
    value_counts [Some 3; None; Some 3]%Z ∅ = Ok counts ∧
    total_count counts = 3.
Proof.
  destruct (value_counts_total [Some 3; None; Some 3]%Z ∅
              (map_Forall_empty _))
    as (counts & Hvc & Hall & _).
  exists counts. split; [exact Hvc|]. exact (Hall (lookup_empty _)).
Defined.

(** X7.  The result of [value_counts] does not depend on the order of
    the entries of the series. *)
Theorem value_counts_order_insensitive series series' options :
  accepted options → series ≡ₚ series' →
  value_counts series options = value_counts series' options.
Proof.
  intros Hacc Hperm. rewrite !value_counts_canonical by done. f_equal.
  apply sort_index_unique; [|apply NoDup_tally_index].
  by apply tally_Permutation, kept_Permutation.
Qed.

Lemma value_counts_order_insensitive_witness :
  value_counts [Some 2; None; Some 1]%Z ∅
  = value_counts [None; Some 2; Some 1]%Z ∅.
Proof.
  apply value_counts_order_insensitive.
  - apply map_Forall_empty.
  - apply perm_swap.
Defined.

(** X8.  The caller's [sort] and [ascending] options have no effect on
    the result: two accepted option sets that agree on [dropna] give
    the same counts in the same order, because [sort_index] reorders
    whatever pandas returns. *)
Theorem value_counts_ignores_sort series options options' :
  accepted options → accepted options' →
  options !! "dropna" = options' !! "dropna" →
  value_counts series options = value_counts series options'.
Proof.
  intros Hacc Hacc' Hd. rewrite !value_counts_canonical by done.
  unfold dropna_of. by rewrite Hd.
Qed.

Lemma value_counts_ignores_sort_witness :
  value_counts [Some 2; None; Some 2; Some 1]%Z
               {[ "sort" := VBool false ]}
  = value_counts [Some 2; None; Some 2; Some 1]%Z ∅.
Proof.
  apply value_counts_ignores_sort.
  - apply map_Forall_singleton. split; [|by exists false].
    unfold keywords. rewrite elem_of_list_to_set. apply list_elem_of_here.
  - apply map_Forall_empty.
  - reflexivity.
Defined.

End counting_more.

(** ** More on [jitter] *)

Section jitter_more.
Import Stats.
Local Open Scope R_scope.
Implicit Types (xs ys : list R) (sigma : R) (st : RandomState).

(** X9.  [jitter] does not check its standard deviation: a negative one
    is refused by the generator with [ValueError], no array is returned
    and no variate is consumed. *)
Theorem jitter_rejects_negative_std xs sigma st :
  sigma < 0 →
  (jitter xs sigma st).1 = Raise ValueError ∧
  (jitter xs sigma st).2 = st.
Proof. intros Hs. by rewrite jitter_negative. Qed.

Lemma jitter_rejects_negative_std_witness :
  (jitter [1; 5] (-1) (fun i => INR i)).1 = Raise ValueError.
Proof.
  apply (jitter_rejects_negative_std [1; 5] (-1) (fun i => INR i)). lra.
Defined.

(** X10.  The noise added by [jitter] does not depend on the data: on
    two sequences of the same length, from the same generator state, the
    same noise array is added and the generator ends in the same
    state. *)
Theorem jitter_noise_ignores_data xs ys sigma st :
  0 <= sigma → length xs = length ys →
  ∃ noise,
    length noise = length xs ∧
    (jitter xs sigma st).1 = Ok (add_arrays noise xs) ∧
    (jitter ys sigma st).1 = Ok (add_arrays noise ys) ∧
    (jitter xs sigma st).2 = (jitter ys sigma st).2.
Proof.
  intros Hs Hlen. rewrite !jitter_ok by done. rewrite <- Hlen. simpl.
  eexists. split; [|done]. by rewrite length_map, length_seq.
Qed.

Lemma jitter_noise_ignores_data_witness :
  ∃ noise,
    length noise = 2%nat ∧
    (jitter [1; 5] 2 (fun i => INR i)).1 = Ok (add_arrays noise [1; 5]) ∧
    (jitter [0; 0] 2 (fun i => INR i)).1 = Ok (add_arrays noise [0; 0]).
Proof.
  destruct (jitter_noise_ignores_data [1; 5] [0; 0] 2 (fun i => INR i))
    as (noise & Hlen & Hx & Hy & _); [lra | reflexivity |].
  exists noise. split; [exact Hlen|]. split; [exact Hx | exact Hy].
Defined.

(** X11.  Two calls in a row use different draws: the second call
    starts where the first one stopped, so its [i]-th element gets the
    variate number [length xs + i] of the generator. *)
Theorem jitter_twice_fresh_draws xs ys sigma st :
  0 <= sigma →
  ∃ zs,
    (jitter ys sigma (jitter xs sigma st).2).1 = Ok zs ∧
    length zs = length ys ∧
    ∀ i y, ys !! i = Some y →
           zs !! i = Some ((0 + sigma * st (length xs + i)%nat) + y).
Proof.
  intros Hs. rewrite (jitter_ok ys) by done. rewrite (jitter_ok xs) by done.
  simpl. eexists. split; [done|]. split.
  - apply add_arrays_length. by rewrite length_map, length_seq.
  - intros i y Hy. apply add_arrays_lookup; [|done].
    rewrite list_lookup_fmap.
    rewrite lookup_seq_lt by (by apply lookup_lt_Some in Hy). done.
Qed.

Lemma jitter_twice_fresh_draws_witness :
  ∃ zs,
    (jitter [7] 2 (jitter [1; 5] 2 (fun i => INR i)).2).1 = Ok zs ∧
    length zs = 1%nat ∧
    ∀ i y, [7] !! i = Some y →
           zs !! i = Some ((0 + 2 * INR (2 + i)) + y).
Proof.
  apply (jitter_twice_fresh_draws [1; 5] [7] 2 (fun i => INR i)). lra.
Defined.

End jitter_more.

(** ** More on [standardize] and the domain of [plot_kde] *)

Section standardize_more.
Import Stats Plot.
Local Open Scope R_scope.
Implicit Types (xs : list R) (a b : R).

Lemma total_affine xs a b :
  total (map (fun x => a * x + b) xs)
  = a * total xs + INR (length xs) * b.
Proof.
  induction xs as [|x xs IH]; [simpl; lra|].
  change (total (map (fun x => a * x + b) (x :: xs)))
    with (a * x + b + total (map (fun x => a * x + b) xs)).
  change (total (x :: xs)) with (x + total xs).
  change (length (x :: xs)) with (S (length xs)).
  rewrite IH, S_INR. lra.
Qed.

Lemma mean_affine xs a b :
  xs ≠ [] → mean (map (fun x => a * x + b) xs) = a * mean xs + b.
Proof.
  intros Hne. unfold mean. rewrite total_affine, length_map.
  field. by apply INR_length_nonzero.
Qed.

Lemma total_scale (g : R → R) xs a :
  total (map (fun x => a * g x) xs) = a * total (map g xs).
Proof.
  induction xs as [|x xs IH]; [simpl; lra|].
  change (total (map (fun x => a * g x) (x :: xs)))
    with (a * g x + total (map (fun x => a * g x) xs)).
  change (total (map g (x :: xs))) with (g x + total (map g xs)).
  rewrite IH. lra.
Qed.

Lemma mean_scale (g : R → R) xs a :
  mean (map (fun x => a * g x) xs) = a * mean (map g xs).
Proof.
  unfold mean. rewrite total_scale, !length_map. unfold Rdiv. ring.
Qed.

Lemma var_affine xs a b :
  xs ≠ [] → var (map (fun x => a * x + b) xs) = (a * a) * var xs.
Proof.
  intros Hne. unfold var. rewrite mean_affine by done.
  rewrite map_map.
  rewrite (map_ext _ (fun x => (a * a) *
                               ((x - mean xs) * (x - mean xs))))
    by (intros x; ring).
  apply (mean_scale (fun x => (x - mean xs) * (x - mean xs))).
Qed.

Lemma std_affine xs a b :
  xs ≠ [] → std (map (fun x => a * x + b) xs) = Rabs a * std xs.
Proof.
  intros Hne. unfold std. rewrite var_affine by done.
  rewrite sqrt_mult_alt by apply Rle_0_sqr.
  f_equal. apply sqrt_Rsqr_abs.
Qed.

(** X12.  [standardize] forgets the unit and the origin of the data:
    for a sequence of positive variance, rescaling by a positive factor
    [a] and shifting by [b] gives the same standardized sequence; with a
    negative factor every standardized value changes sign. *)
Theorem standardize_affine xs a b :
  0 < var xs →
  (0 < a →
   standardize (map (fun x => a * x + b) xs) = standardize xs) ∧
  (a < 0 →
   standardize (map (fun x => a * x + b) xs)
   = map Ropp (standardize xs)).
Proof.
  intros Hv. pose proof (var_pos_nonempty _ Hv) as Hne.
  pose proof (std_pos _ Hv) as Hs.
  unfold standardize, div_scalar, sub_scalar.
  rewrite mean_affine, std_affine by done. rewrite !map_map.
  split; intros Ha.
  - rewrite Rabs_right by lra. apply map_ext. intros x. field. lra.
  - rewrite Rabs_left by lra. apply map_ext. intros x. field. lra.
Qed.

Lemma standardize_affine_witness :
  standardize (map (fun x => 3 * x + 10) [0; 2]) = standardize [0; 2] ∧
  standardize (map (fun x => -1 * x + 0) [0; 2])
  = map Ropp (standardize [0; 2]).
Proof.
  assert (Hv : 0 < var [0; 2]) by (rewrite var_0_2; lra).
  split.
  - apply (proj1 (standardize_affine [0; 2] 3 10 Hv)). lra.
  - apply (proj2 (standardize_affine [0; 2] (-1) 0 Hv)). lra.
Defined.

(** X13.  In exact real arithmetic, [standardize] keeps the order of
    the values, and the sign of a standardized value tells on which
    side of the mean the value lies: for a sequence of positive
    variance, a larger entry gets a larger standardized value, and an
    entry above the mean a positive one.  (On doubles, rounding can
    merge close values.) *)
Theorem standardize_monotone xs i j x y :
  0 < var xs → xs !! i = Some x → xs !! j = Some y →
  ∃ zx zy,
    standardize xs !! i = Some zx ∧
    standardize xs !! j = Some zy ∧
    (x <= y → zx <= zy) ∧
    (x < y → zx < zy) ∧
    (mean xs < x → 0 < zx) ∧
    (x < mean xs → zx < 0).
Proof.
  intros Hv Hx Hy. pose proof (std_pos _ Hv) as Hs.
  exists ((x - mean xs) / std xs), ((y - mean xs) / std xs).
  unfold standardize, div_scalar, sub_scalar.
  rewrite map_map, !list_lookup_fmap, Hx, Hy. simpl.
  split; [done|]. split; [done|].
  assert (Hi : 0 < / std xs) by (by apply Rinv_0_lt_compat).
  unfold Rdiv. repeat split; intros H.
  - apply Rmult_le_compat_r; lra.
  - apply Rmult_lt_compat_r; lra.
  - apply Rmult_lt_0_compat; lra.
  - replace 0 with (0 * / std xs) by ring.
    apply Rmult_lt_compat_r; lra.
Qed.

Lemma standardize_monotone_witness :
  ∃ zx zy,
    standardize [0; 2] !! 0%nat = Some zx ∧
    standardize [0; 2] !! 1%nat = Some zy ∧
    zx < zy.
Proof.
  assert (Hv : 0 < var [0; 2]) by (rewrite var_0_2; lra).
  destruct (standardize_monotone [0; 2] 0 1 0 2 Hv eq_refl eq_refl)
    as (zx & zy & Hx & Hy & _ & Hlt & _).
  exists zx, zy. split; [exact Hx|]. split; [exact Hy|]. apply Hlt. lra.
Defined.

(** X14.  In exact real arithmetic, for a sample of positive variance
    (on which the density fit succeeds), the domain over which
    [plot_kde] renders the curve has the sample mean strictly inside
    it: it is a proper interval, low end below the mean and high end
    above it. *)
Theorem plot_kde_domain_contains_mean (sample : list R) (name : string)
        (options : gmap string value) :
  0 < var sample →
  ∃ low high,
    plotted_domains (plot_kde sample name options) = [(low, high)] ∧
    low < mean sample < high ∧
    low < high.
Proof.
  intros Hv. rewrite (plot_kde_calls _ _ _ Hv).
  eexists _, _. split; [reflexivity|].
  pose proof (std_pos _ Hv). lra.
Qed.

Lemma plot_kde_domain_contains_mean_witness :
  ∃ low high,
    plotted_domains (plot_kde [0; 2] "" ∅) = [(low, high)] ∧
    low < mean [0; 2] < high.
Proof.
  destruct (plot_kde_domain_contains_mean [0; 2] "" ∅ var_0_2_pos)
    as (low & high & Hd & Hin & _).
  exists low, high. split; [exact Hd | exact Hin].
Defined.

End standardize_more.

(** ** More on [display_summary] *)

Section display_summary_more.
Import Summary More.
Implicit Types (result : RegressionResults) (params : table).

(** X15.  A result that has [prsquared] and no [rsquared] gets two
    tables: the coefficient table, then the one-row table labelled
    [Pseudo R-squared:] built from [prsquared]. *)
Theorem display_summary_pseudo result params pr :
  summary_tables result !! 1%nat = Some params →
  rsquared result = None →
  prsquared result = Some pr →
  calls (display_summary result)
  = [Display params; Display (prsquared_table pr)] ∧
  outcome (display_summary result) = Ok tt.
Proof.
  intros Hp Hr Hpr.
  by rewrite (display_summary_prsquared _ _ _ Hp Hr Hpr).
Qed.

Lemma display_summary_pseudo_witness :
  calls (display_summary logit_result)
  = [Display (SimpleTable [[Lit "Intercept"; Lit "-0.5"];
                           [Lit "x"; Lit "2.0"]]);
     Display (prsquared_table 0.125%R)].
Proof.
  apply (display_summary_pseudo logit_result _ 0.125%R); reflexivity.
Defined.

(** X16.  When [result.summary()] has fewer than two tables,
    [display_summary] raises [IndexError] at [tables[1]] and displays
    nothing, whatever attributes the result has. *)
Theorem display_summary_short_summary result :
  length (summary_tables result) < 2 →
  calls (display_summary result) = [] ∧
  outcome (display_summary result) = Raise IndexError.
Proof.
  intros Hlen.
  assert (Hp : summary_tables result !! 1%nat = None)
    by (apply lookup_ge_None; lia).
  by rewrite (display_summary_no_params _ Hp).
Qed.

Lemma display_summary_short_summary_witness :
  calls (display_summary short_result) = [] ∧
  outcome (display_summary short_result) = Raise IndexError.
Proof.
  apply (display_summary_short_summary short_result). simpl. lia.
Defined.

End display_summary_more.

(** ** More on [legend] *)

Section legend_more.
Import Underride Plot.
Implicit Types (ax : Axes) (options : gmap string value).

Lemma elem_of_bool_filter {A : Type} (f : A → bool) (l : list A) a :
  a ∈ List.filter f l ↔ a ∈ l ∧ f a = true.
Proof. rewrite !list_elem_of_In. apply filter_In. Qed.

(** [legend] ends normally when the location is one matplotlib
    takes. *)
Lemma legend_outcome ax options :
  valid_loc (default (VStr "best") (options !! "loc")) = true →
  outcome (legend ax options) = Ok tt.
Proof.
  intros Hv. unfold legend, get_legend_handles_labels.
  destruct (List.filter labeled (artists ax)); [done|].
  apply (ax_legend_outcome _ _ _
           (default (VStr "best") (options !! "loc"))); [|done].
  rewrite lookup_underride. by destruct (options !! "loc").
Qed.

(** The only call [legend] can make. *)
Lemma legend_calls_inv ax options handles labels options' :
  calls (legend ax options) = [AxLegend handles labels options'] →
  handles = List.filter labeled (artists ax) ∧
  labels = map artist_label handles ∧
  options' = underride options [("loc", VStr "best")].
Proof.
  unfold legend, get_legend_handles_labels.
  destruct (List.filter labeled (artists ax)) as [|h hs] eqn:Hf;
    [discriminate|].
  rewrite ax_legend_calls. intros [= <- <- <-]. done.
Qed.

(** X17.  When [legend] draws, the location it passes on is the
    caller's [loc], or ["best"] when the caller gave none; every other
    option of the caller is passed on unchanged and nothing else is
    added. *)
Theorem legend_options ax options handles labels options' :
  calls (legend ax options) = [AxLegend handles labels options'] →
  options' !! "loc" = Some (default (VStr "best") (options !! "loc")) ∧
  ∀ key, key ≠ "loc" → options' !! key = options !! key.
Proof.
  intros (_ & _ & ->)%legend_calls_inv. split.
  - rewrite lookup_underride. by destruct (options !! "loc").
  - intros key Hne. rewrite lookup_underride.
    destruct (options !! key); [done|].
    simpl. by rewrite lookup_insert_ne, lookup_empty.
Qed.

Lemma legend_options_witness :
  ∃ options',
    calls (legend (MkAxes [MkArtist 0 "data"] [])
                  {[ "loc" := VStr "upper left" ]})
    = [AxLegend [MkArtist 0 "data"] ["data"] options'] ∧
    options' !! "loc" = Some (VStr "upper left").
Proof.
  assert (Hc : calls (legend (MkAxes [MkArtist 0 "data"] [])
                             {[ "loc" := VStr "upper left" ]})
               = [AxLegend [MkArtist 0 "data"] ["data"]
                           {[ "loc" := VStr "upper left" ]}])
    by (vm_compute; reflexivity).
  eexists. split; [exact Hc|].
  destruct (legend_options _ _ _ _ _ Hc) as [Hloc _].
  exact Hloc.
Defined.

(** X18.  The legend lists the labeled artists and only them: the
    handles passed to [ax.legend] are the labeled children of the axes
    (lines, patches) in the order they were added, followed by the
    labeled containers (bar plots) in the order they were added, and
    the labels are the labels of these handles, one for one. *)
Theorem legend_handles ax options handles labels options' :
  calls (legend ax options) = [AxLegend handles labels options'] →
  handles = List.filter labeled (children ax)
            ++ List.filter labeled (containers ax) ∧
  (∀ a, a ∈ handles ↔ a ∈ artists ax ∧ labeled a = true) ∧
  labels = map artist_label handles ∧
  length labels = length handles.
Proof.
  intros (-> & -> & _)%legend_calls_inv. split; [|split; [|split]].
  - apply List.filter_app.
  - intros a. apply elem_of_bool_filter.
  - done.
  - apply length_map.
Qed.

Lemma legend_handles_witness :
  ∃ handles labels options',
    calls (legend (MkAxes [MkArtist 1 "_child0"; MkArtist 2 "fit"]
                          [MkArtist 0 "bars"]) ∅)
    = [AxLegend handles labels options'] ∧
    handles = [MkArtist 2 "fit"; MkArtist 0 "bars"].
Proof.
  assert (Hc : calls (legend (MkAxes [MkArtist 1 "_child0";
                                      MkArtist 2 "fit"]
                                     [MkArtist 0 "bars"]) ∅)
               = [AxLegend [MkArtist 2 "fit"; MkArtist 0 "bars"]
                           ["fit"; "bars"] {[ "loc" := VStr "best" ]}])
    by (vm_compute; reflexivity).
  eexists _, _, _. split; [exact Hc|].
  destruct (legend_handles _ _ _ _ _ Hc) as [Hh _].
  exact Hh.
Defined.

End legend_more.

(** ** [decorate] *)

Section decorate_facts.
Import Underride Plot Decorate.
Implicit Types (ax : Axes) (options : gmap string value).

(** The run of [decorate]: the legend, when asked for; if that ends
    normally, [ax.set] with what is left of the options; if the
    keywords are all properties of the axes, [tight_layout]. *)
Lemma decorate_run ax options (lg : plt unit) :
  lg = (if truthy (default (VBool true) (options !! "legend"))
        then legend ax {[ "loc" :=
                            default (VStr "best") (options !! "loc") ]}
        else ([], Ok tt)) →
  decorate ax options
  = match outcome lg with
    | Raise e => (Helper <$> calls lg, Raise e)
    | Ok _ =>
        if decide (dom (delete "legend" (delete "loc" options))
                   ⊆ axes_properties)
        then ((Helper <$> calls lg)
              ++ [AxSet (delete "legend" (delete "loc" options));
                  TightLayout], Ok tt)
        else ((Helper <$> calls lg)
              ++ [AxSet (delete "legend" (delete "loc" options))],
              Raise AttributeError)
    end.
Proof.
  intros ->. unfold decorate, pop. rewrite lookup_delete_ne by done.
  unfold ax_set.
  destruct (truthy _).
  - unfold helper.
    destruct (legend ax _) as [t [[]|e]]; simpl; [|done].
    by case_decide.
  - simpl. by case_decide.
Qed.

(** When the location is one matplotlib takes and the remaining
    keywords are properties of the axes, [decorate] runs to its end. *)
Lemma decorate_trace ax options :
  valid_loc (default (VStr "best") (options !! "loc")) = true →
  dom (delete "legend" (delete "loc" options)) ⊆ axes_properties →
  decorate ax options
  = ((if truthy (default (VBool true) (options !! "legend"))
      then Helper <$> calls (legend ax {[ "loc" :=
                               default (VStr "best") (options !! "loc") ]})
      else [])
     ++ [AxSet (delete "legend" (delete "loc" options)); TightLayout],
     Ok tt).
Proof.
  intros Hloc Hprops. rewrite (decorate_run ax options _ eq_refl).
  destruct (truthy _).
  - rewrite legend_outcome by (by rewrite lookup_singleton_eq).
    by rewrite decide_True.
  - simpl. by rewrite decide_True.
Qed.


Lemma set_calls_app t1 t2 :
  set_calls (t1 ++ t2) = set_calls t1 ++ set_calls t2.
Proof. unfold set_calls. by rewrite flat_map_app. Qed.

Lemma set_calls_helper (t : list call) : set_calls (Helper <$> t) = [].
Proof. induction t as [|c t IH]; [done|]. csimpl. exact IH. Qed.





Lemma xlabel_is_property :
  ({[ "xlabel" ]} : gset string) ⊆ axes_properties.
Proof. refine (bool_decide_unpack _ _). vm_compute. exact I. Qed.

Lemma best_is_valid : valid_loc (VStr "best") = true.
Proof. vm_compute. reflexivity. Qed.

(** [decorate(xlabel=...)] runs to its end. *)
Lemma decorate_xlabel ax (xlabel : string) :
  decorate ax {[ "xlabel" := VStr xlabel ]}
  = ((Helper <$> calls (legend ax {[ "loc" := VStr "best" ]}))
     ++ [AxSet {[ "xlabel" := VStr xlabel ]}; TightLayout],
     Ok tt).
Proof.
  assert (Hd : delete "legend"
                 (delete "loc"
                    ({[ "xlabel" := VStr xlabel ]} : gmap string value))
               = {[ "xlabel" := VStr xlabel ]}).
  { rewrite !delete_id; [done | done |]. by rewrite lookup_delete_ne. }
  rewrite decorate_trace.
  - rewrite Hd, !lookup_singleton_ne by done. done.
  - rewrite lookup_singleton_ne by done. exact best_is_valid.
  - rewrite Hd, dom_singleton_L. exact xlabel_is_property.
Qed.






End decorate_facts.

(** ** [remove_spines] *)

Section spines_facts.
Import Spines.
Implicit Types (sp : list (string * bool)) (ax : Frame).

Lemma hide_names sp : (hide sp).*1 = sp.*1.
Proof.
  induction sp as [|[name vis] sp IH]; [done|]. csimpl. by rewrite IH.
Qed.

Lemma hide_invisible sp name vis : (name, vis) ∈ hide sp → vis = false.
Proof.
  induction sp as [|[name' vis'] sp IH]; simpl.
  - by intros ?%elem_of_nil.
  - intros [Heq|Hin]%elem_of_cons; [congruence | by apply IH].
Qed.

Lemma hide_hide sp : hide (hide sp) = hide sp.
Proof.
  induction sp as [|[name vis] sp IH]; [done|]. simpl. by rewrite IH.
Qed.

(** X22.  After [remove_spines] no spine of the axes is visible, the
    axes have the same spines as before, in the same order, the ticks
    are drawn at the bottom and on the left; running it again changes
    nothing. *)
Theorem remove_spines_hides_all ax :
  (∀ name vis, (name, vis) ∈ spines (remove_spines ax) → vis = false) ∧
  (spines (remove_spines ax)).*1 = (spines ax).*1 ∧
  xaxis_ticks (remove_spines ax) = "bottom" ∧
  yaxis_ticks (remove_spines ax) = "left" ∧
  remove_spines (remove_spines ax) = remove_spines ax.
Proof.
  unfold remove_spines. simpl. split; [|split; [|split; [|split]]].
  - intros name vis. apply hide_invisible.
  - apply hide_names.
  - done.
  - done.
  - by rewrite hide_hide.
Qed.

End spines_facts.

Example remove_spines_fresh :
  Spines.remove_spines Spines.fresh_frame
  = Spines.MkFrame [("left", false); ("right", false);
                    ("bottom", false); ("top", false)] "bottom" "left".
Proof. reflexivity. Qed.

(** ** [two_bar_plots] *)

Section two_bars_facts.
Import Underride Plot Decorate TwoBars.
Local Open Scope R_scope.
Context {Dist : Type}.
Variable bar_effect : Dist → string → R → gmap string style → Axes → Axes.
Implicit Types (ax : Axes) (dist : Dist) (width : R) (xlabel : string)
         (options : gmap string style).

Lemma bar_calls_decoration (t : list draw) :
  bar_calls (Dist := Dist) (Decoration <$> t) = [].
Proof. induction t as [|d t IH]; [done|]. csimpl. exact IH. Qed.

(** The styling options after the default [alpha=0.6]. *)
Lemma styled_lookup options key :
  underride options [("alpha", SFloat 0.6)] !! key
  = if decide (key = "alpha")
    then Some (default (SFloat 0.6) (options !! "alpha"))
    else options !! key.
Proof.
  rewrite lookup_underride. case_decide as Hk.
  - subst key. by destruct (options !! "alpha").
  - destruct (options !! key); [done|].
    simpl. by rewrite lookup_insert_ne, lookup_empty.
Qed.

Lemma styled_dom options key :
  key ≠ "alpha" →
  key ∈ dom (underride options [("alpha", SFloat 0.6)]) ↔ key ∈ dom options.
Proof.
  intros Hk. rewrite !elem_of_dom, styled_lookup. by rewrite decide_False.
Qed.

Lemma call_bar_ok dist w options ax :
  "align" ∉ dom options → "width" ∉ dom options →
  call_bar bar_effect dist w (underride options [("alpha", SFloat 0.6)]) ax
  = ([Bar dist "edge" w (underride options [("alpha", SFloat 0.6)])],
     Ok (bar_effect dist "edge" w
           (underride options [("alpha", SFloat 0.6)]) ax)).
Proof.
  intros Ha Hw. unfold call_bar. rewrite decide_False; [done|].
  rewrite !styled_dom by done. tauto.
Qed.

(** X23.  When the caller's options name neither [align] nor [width],
    [two_bar_plots] draws exactly two bar plots back to back: the first
    distribution with width [-width], the second with width [width],
    both aligned on the edge and with the same styling options, which
    are the caller's options with [alpha] set to [0.6] unless the caller
    chose one. *)
Theorem two_bar_plots_mirrored ax dist1 dist2 width xlabel options :
  "align" ∉ dom options → "width" ∉ dom options →
  ∃ styled,
    bar_calls (two_bar_plots bar_effect ax dist1 dist2 width xlabel
                             options).1
    = [(dist1, "edge"%string, - width, styled);
       (dist2, "edge"%string, width, styled)] ∧
    styled !! "alpha" = Some (default (SFloat 0.6) (options !! "alpha")) ∧
    (∀ key, key ≠ "alpha" → styled !! key = options !! key) ∧
    (two_bar_plots bar_effect ax dist1 dist2 width xlabel options).2
    = Ok tt.
Proof.
  intros Ha Hw. exists (underride options [("alpha", SFloat 0.6)]).
  split; [|split; [|split]].
  - unfold two_bar_plots. rewrite !call_bar_ok by done.
    rewrite decorate_xlabel. cbn [fst app].
    unfold bar_calls at 1. cbn [flat_map app]. f_equal. f_equal.
    apply bar_calls_decoration.
  - by rewrite styled_lookup, decide_True.
  - intros key Hk. by rewrite styled_lookup, decide_False.
  - unfold two_bar_plots. rewrite !call_bar_ok by done.
    by rewrite decorate_xlabel.
Qed.

(** X24.  An [align] option makes [two_bar_plots] fail: the first
    [bar] call already gives [align="edge"], Python raises [TypeError]
    for the repeated keyword, and nothing is drawn. *)
Theorem two_bar_plots_align_clash ax dist1 dist2 width xlabel options :
  "align" ∈ dom options →
  two_bar_plots bar_effect ax dist1 dist2 width xlabel options
  = ([], Raise TypeError).
Proof.
  intros Ha. unfold two_bar_plots, call_bar.
  rewrite decide_True; [done|]. left. by apply styled_dom.
Qed.

(** X25.  After the two bars, [two_bar_plots] decorates the axes with
    the x label only: one [ax.set] call, with [xlabel] as its single
    property, and [tight_layout] as the last call of all. *)
Theorem two_bar_plots_decoration ax dist1 dist2 width xlabel options :
  "align" ∉ dom options → "width" ∉ dom options →
  ∃ bars t,
    (two_bar_plots bar_effect ax dist1 dist2 width xlabel options).1
    = bars ++ (Decoration <$> t) ∧
    length bars = 2%nat ∧
    set_calls t = [{[ "xlabel" := VStr xlabel ]}] ∧
    last t = Some TightLayout.
Proof.
  intros Ha Hw. unfold two_bar_plots. rewrite !call_bar_ok by done.
  rewrite decorate_xlabel. cbn [fst].
  eexists [_; _], _. split; [reflexivity|]. split; [done|]. split.
  - by rewrite set_calls_app, set_calls_helper.
  - by rewrite last_app.
Qed.

End two_bars_facts.

Section two_bars_examples.
Import Plot Decorate TwoBars.
Local Open Scope R_scope.

Lemma two_bar_plots_mirrored_witness :
  ∃ styled,
    bar_calls (two_bar_plots example_bar (MkAxes [] []) 1%nat 2%nat 0.45 "age"
                             {[ "color" := SValue (VStr "C1") ]}).1
    = [(1%nat, "edge"%string, Ropp 0.45, styled);
       (2%nat, "edge"%string, 0.45, styled)] ∧
    styled !! "alpha" = Some (SFloat 0.6).
Proof.
  destruct (two_bar_plots_mirrored example_bar (MkAxes [] []) 1%nat 2%nat
              0.45 "age" {[ "color" := SValue (VStr "C1") ]})
    as (styled & Hbars & Halpha & _).
  - apply not_elem_of_dom. reflexivity.
  - apply not_elem_of_dom. reflexivity.
  - exists styled. split; [exact Hbars | exact Halpha].
Defined.

Lemma two_bar_plots_align_clash_witness :
  two_bar_plots example_bar (MkAxes [] []) 1%nat 2%nat 0.45 "age"
                {[ "align" := SValue (VStr "center") ]}
  = ([], Raise TypeError).
Proof.
  apply two_bar_plots_align_clash.
  apply elem_of_dom. eexists. reflexivity.
Defined.

Lemma two_bar_plots_decoration_witness :
  ∃ bars t,
    (two_bar_plots example_bar (MkAxes [] []) 1%nat 2%nat 0.45 "age" ∅).1
    = bars ++ (Decoration <$> t) ∧
    length bars = 2%nat ∧
    set_calls t = [{[ "xlabel" := VStr "age" ]}] ∧
    last t = Some TightLayout.
Proof.
  apply two_bar_plots_decoration.
  - apply not_elem_of_dom. reflexivity.
  - apply not_elem_of_dom. reflexivity.
Defined.

End two_bars_examples.
